(** * ObsidianExporter: layout, edge routing and markup rendering

    A shallow embedding of the algorithmic parts of
    [obsidianexporter.py]:

    - [Layout]: [filter_main_nodes] and the canvas extent computed at the
      start of [generate_html] (Python);
    - [Router]: [calculateAnchorPoint], [createPerpendicularControlPoints],
      [adjustArrowEndPoint] and [drawEdge] of the embedded viewer script
      (JavaScript);
    - [Markup]: the per-node text pipeline of [generate_html] together with
      [clean_content_after_code] (Python, regular-expression rewriting);
    - [Palette]: [get_node_color] and [get_edge_color] (Python);
    - [Viewer]: the zoom, reset and pan handlers of the viewer script
      (JavaScript);
    - [Render]: the three parts put together.

    Numbers.  Python floats and JavaScript numbers are idealised as real
    numbers ([R]): rounding, overflow, infinities and NaN are not modelled.
    Strings are sequences of bytes (UTF-8), and the whitespace class is the
    ASCII one. *)

From Stdlib Require Import String Ascii Bool Arith.
From Stdlib Require Import Reals Lra Lia List Permutation Sorted.
Import ListNotations.

(** ** Shared numeric helpers *)

Definition Rleb (a b : R) : bool := if Rle_dec a b then true else false.
Definition Rltb (a b : R) : bool := if Rlt_dec a b then true else false.

(** Python's [sum(...)]: a left fold starting from [0]. *)
Definition sum (l : list R) : R := fold_left Rplus l 0%R.

(** Python's [min(...)] and [max(...)] over a non-empty sequence whose first
    element is [a]. *)
Definition py_min (a : R) (l : list R) : R := fold_left Rmin l a.
Definition py_max (a : R) (l : list R) : R := fold_left Rmax l a.

(** ** Layout engine (Python) *)

Module Layout.
Open Scope R_scope.

(** The fields of a canvas node that the layout reads. *)
Record Node := mkNode {
  node_id : string;
  node_x : R;
  node_y : R;
  node_width : R;
  node_height : R
}.

Definition node_center_x (n : Node) : R := node_x n + node_width n / 2.
Definition node_center_y (n : Node) : R := node_y n + node_height n / 2.

(** [((cx' - cx)**2 + (cy' - cy)**2)**0.5] *)
Definition distance_from (center_x center_y : R) (n : Node) : R :=
  sqrt ((node_center_x n - center_x) ^ 2 + (node_center_y n - center_y) ^ 2).

(** [distances.sort(key=lambda x: x[0])]: a stable ascending sort on the
    first component.  Insertion from the right keeps equal keys in their
    original order. *)
Fixpoint insert_by_key (d : R * Node) (l : list (R * Node)) : list (R * Node) :=
  match l with
  | [] => [d]
  | e :: l' => if Rleb (fst d) (fst e) then d :: e :: l'
               else e :: insert_by_key d l'
  end.

Fixpoint sort_by_key (l : list (R * Node)) : list (R * Node) :=
  match l with
  | [] => []
  | d :: l' => insert_by_key d (sort_by_key l')
  end.

Definition filter_main_nodes (nodes : list Node) : list Node :=
  if (length nodes <=? 1)%nat then nodes
  else
    let center_x := sum (map node_center_x nodes) / INR (length nodes) in
    let center_y := sum (map node_center_y nodes) / INR (length nodes) in
    let distances :=
      sort_by_key (map (fun n => (distance_from center_x center_y n, n)) nodes) in
    if (2 <? length distances)%nat then
      let mean_distance := sum (map fst distances) / INR (length distances) in
      let variance :=
        sum (map (fun d => (fst d - mean_distance) ^ 2) distances)
        / INR (length distances) in
      let std_deviation := sqrt variance in
      let threshold := mean_distance + 1.5 * std_deviation in
      map snd (filter (fun d => Rleb (fst d) threshold) distances)
    else nodes.

(** The canvas size and the offsets computed at the start of
    [generate_html]. *)
Record CanvasExtent := mkExtent {
  canvas_width : R;
  canvas_height : R;
  offset_x : R;
  offset_y : R
}.

Definition margin : R := 200.
Definition title_margin : R := 100.
Definition min_canvas_width : R := 2000.
Definition min_canvas_height : R := 1500.

Record Box := mkBox { min_x : R; max_x : R; min_y : R; max_y : R }.

(** The four [min]/[max] generator expressions over a non-empty node list. *)
Definition bounding_box (n : Node) (ns : list Node) : Box :=
  {| min_x := py_min (node_x n) (map node_x ns);
     max_x := py_max (node_x n + node_width n)
                     (map (fun m => node_x m + node_width m) ns);
     min_y := py_min (node_y n) (map node_y ns);
     max_y := py_max (node_y n + node_height n)
                     (map (fun m => node_y m + node_height m) ns) |}.

Definition extent_of_box (b : Box) : CanvasExtent :=
  let canvas_width := max_x b - min_x b + margin * 2 in
  let canvas_height := max_y b - min_y b + margin * 2 + title_margin in
  {| canvas_width := Rmax canvas_width min_canvas_width;
     canvas_height := Rmax canvas_height min_canvas_height;
     offset_x := - min_x b + margin;
     offset_y := - min_y b + margin + title_margin |}.

Definition compute_extent (nodes : list Node) : CanvasExtent :=
  match nodes with
  | [] => {| canvas_width := 2000; canvas_height := 1500;
             offset_x := 0; offset_y := 0 |}
  | n :: ns =>
      match filter_main_nodes nodes with
      | m :: ms => extent_of_box (bounding_box m ms)
      | [] => extent_of_box (bounding_box n ns)
      end
  end.

(** *** The layout engine in the words of the specification *)

Definition spec_centroid (nodes : list Node) : R * R :=
  (sum (map node_center_x nodes) / INR (length nodes),
   sum (map node_center_y nodes) / INR (length nodes)).

Definition spec_distance (nodes : list Node) (n : Node) : R :=
  distance_from (fst (spec_centroid nodes)) (snd (spec_centroid nodes)) n.

Definition spec_mean (nodes : list Node) : R :=
  sum (map (spec_distance nodes) nodes) / INR (length nodes).

(** Population standard deviation of the distances. *)
Definition spec_stddev (nodes : list Node) : R :=
  sqrt (sum (map (fun n => (spec_distance nodes n - spec_mean nodes) ^ 2) nodes)
        / INR (length nodes)).

Definition spec_threshold (nodes : list Node) : R :=
  spec_mean nodes + 1.5 * spec_stddev nodes.

Definition spec_is_main (nodes : list Node) (n : Node) : bool :=
  Rleb (spec_distance nodes n) (spec_threshold nodes).

(** [b] is the bounding box of the rectangles of [ns]. *)
Definition is_bounding_box (ns : list Node) (b : Box) : Prop :=
  (forall n, In n ns ->
     min_x b <= node_x n /\ node_x n + node_width n <= max_x b /\
     min_y b <= node_y n /\ node_y n + node_height n <= max_y b) /\
  (exists n, In n ns /\ node_x n = min_x b) /\
  (exists n, In n ns /\ node_x n + node_width n = max_x b) /\
  (exists n, In n ns /\ node_y n = min_y b) /\
  (exists n, In n ns /\ node_y n + node_height n = max_y b).

(** Three nodes in a row, on which the statements are instantiated. *)
Definition row3 : list Node :=
  [ mkNode "a" 0 0 100 50; mkNode "b" 300 0 100 50; mkNode "c" 600 0 100 50 ].

(** Four nodes centred on the origin and one centred 100 to the right. *)
Definition near (name : string) : Node := mkNode name (-50) (-25) 100 50.
Definition far : Node := mkNode "far" 50 (-25) 100 50.
Definition cluster5 : list Node :=
  [ near "n1"; near "n2"; far; near "n3"; near "n4" ].

(** The same node moved by [(dx, dy)]. *)
Definition translate (dx dy : R) (n : Node) : Node :=
  mkNode (node_id n) (node_x n + dx) (node_y n + dy)
         (node_width n) (node_height n).

(** Applying [t] to the node of every tagged distance. *)
Definition on_node (t : Node -> Node) (d : R * Node) : R * Node :=
  (fst d, t (snd d)).

End Layout.

(** ** Markup renderer (Python) *)

Module Markup.
Open Scope string_scope.

Definition newline : ascii := ascii_of_nat 10.
Definition nl : string := String newline EmptyString.
Definition dq : string := String (ascii_of_nat 34) EmptyString.

(** The whitespace class of [str.strip] and of [\s], on ASCII. *)
Definition is_space (c : ascii) : bool :=
  let n := nat_of_ascii c in
  (((9 <=? n) && (n <=? 13)) || ((28 <=? n) && (n <=? 32)))%nat.

(** [\d], on ASCII. *)
Definition is_digit (c : ascii) : bool :=
  let n := nat_of_ascii c in ((48 <=? n) && (n <=? 57))%nat.

(** *** String primitives *)

(** [s.startswith(p)], returning what follows the prefix. *)
Fixpoint strip_prefix (p s : string) : option string :=
  match p, s with
  | EmptyString, _ => Some s
  | String a p', String b s' => if Ascii.eqb a b then strip_prefix p' s' else None
  | String _ _, EmptyString => None
  end.

Definition startswith (s p : string) : bool :=
  match strip_prefix p s with Some _ => true | None => false end.

Fixpoint drop (n : nat) (s : string) : string :=
  match n, s with
  | S k, String _ s' => drop k s'
  | _, _ => s
  end.

Fixpoint take (n : nat) (s : string) : string :=
  match n, s with
  | S k, String c s' => String c (take k s')
  | _, _ => EmptyString
  end.

(** The longest prefix of [s] whose characters satisfy [f]. *)
Fixpoint take_while (f : ascii -> bool) (s : string) : string :=
  match s with
  | String c s' => if f c then String c (take_while f s') else EmptyString
  | EmptyString => EmptyString
  end.

(** [s.find(p)] for a non-empty [p]. *)
Fixpoint find_sub (p s : string) : option nat :=
  if startswith s p then Some 0
  else match s with
       | String _ s' => option_map S (find_sub p s')
       | EmptyString => None
       end.

(** [p in s] *)
Definition contains (s p : string) : bool :=
  match find_sub p s with Some _ => true | None => false end.

(** [s.replace(c, new)] for a single character [c]. *)
Fixpoint replace_char (c : ascii) (new : string) (s : string) : string :=
  match s with
  | EmptyString => EmptyString
  | String a s' =>
      if Ascii.eqb a c then new ++ replace_char c new s'
      else String a (replace_char c new s')
  end.

(** [s.split(c)] for a single character [c]. *)
Fixpoint split_char (c : ascii) (s : string) : list string :=
  match s with
  | EmptyString => [EmptyString]
  | String a s' =>
      if Ascii.eqb a c then EmptyString :: split_char c s'
      else match split_char c s' with
           | piece :: pieces => String a piece :: pieces
           | [] => [String a EmptyString]
           end
  end.

(** [s.split(sep)] for a non-empty [sep]; [skip] characters of a separator
    found earlier are still to be passed. *)
Fixpoint split_from (sep : string) (skip : nat) (s : string) : list string :=
  match s with
  | EmptyString => [EmptyString]
  | String a s' =>
      match skip with
      | S k => split_from sep k s'
      | O =>
          if startswith s sep
          then EmptyString :: split_from sep (String.length sep - 1) s'
          else match split_from sep 0 s' with
               | piece :: pieces => String a piece :: pieces
               | [] => [String a EmptyString]
               end
      end
  end.

Definition split (sep s : string) : list string := split_from sep 0 s.

(** [sep.join(pieces)] *)
Definition join (sep : string) (pieces : list string) : string :=
  String.concat sep pieces.

Definition lstrip (s : string) : string := drop (String.length (take_while is_space s)) s.

Fixpoint rstrip (s : string) : string :=
  match s with
  | EmptyString => EmptyString
  | String c s' =>
      match rstrip s' with
      | EmptyString => if is_space c then EmptyString else String c EmptyString
      | r => String c r
      end
  end.

(** [s.strip()] *)
Definition strip (s : string) : string := rstrip (lstrip s).

(** *** Regular-expression substitution *)

(** A pattern is given by its matcher at the start of a text: the
    replacement and the number of characters matched (at least one). *)
Definition Matcher : Type := string -> option (string * nat).

(** [re.sub(pattern, replacement, s)]: the text is scanned from the left;
    where the pattern matches, the replacement is written and the scan goes
    on after the match; elsewhere the character is copied.  [skip] counts
    the characters of the last match still to be passed. *)
Fixpoint sub_from (m : Matcher) (skip : nat) (s : string) : string :=
  match s with
  | EmptyString => EmptyString
  | String c s' =>
      match skip with
      | S k => sub_from m k s'
      | O =>
          match m s with
          | Some (r, len) => r ++ sub_from m (len - 1) s'
          | None => String c (sub_from m 0 s')
          end
      end
  end.

Definition re_sub (m : Matcher) (s : string) : string := sub_from m 0 s.

(** [```([\s\S]*?)```], the replacement computed by [f] from group 1. *)
Definition fence : string := "```".

Definition match_fence (f : string -> string) : Matcher := fun s =>
  match strip_prefix fence s with
  | Some rest =>
      match find_sub fence rest with
      | Some k => Some (f (take k rest), 3 + k + 3)
      | None => None
      end
  | None => None
  end.

(** [open([^c]+)close], the replacement computed from group 1: the group is
    the longest run of characters other than [c], and must not be empty. *)
Definition match_delimited (open : string) (c : ascii) (close : string)
    (f : string -> string) : Matcher := fun s =>
  match strip_prefix open s with
  | Some rest =>
      let body := take_while (fun a => negb (Ascii.eqb a c)) rest in
      match body with
      | EmptyString => None
      | _ =>
          if startswith (drop (String.length body) rest) close
          then Some (f body,
                     String.length open + String.length body + String.length close)
          else None
      end
  | None => None
  end.

(** [\*\*([^*]+)\*\*] to [<strong>\1</strong>] *)
Definition match_bold : Matcher :=
  match_delimited "**" "*"%char "**"
    (fun g => "<strong>" ++ g ++ "</strong>").

(** [\*([^*]+)\*] to [<em>\1</em>] *)
Definition match_italic : Matcher :=
  match_delimited "*" "*"%char "*" (fun g => "<em>" ++ g ++ "</em>").

(** [\[([^\]]+)\]\(([^)]+)\)] to [<a href="\2" target="_blank">\1</a>] *)
Definition match_link : Matcher := fun s =>
  match strip_prefix "[" s with
  | Some rest =>
      let text := take_while (fun a => negb (Ascii.eqb a "]"%char)) rest in
      match text, strip_prefix "](" (drop (String.length text) rest) with
      | String _ _, Some rest' =>
          let url := take_while (fun a => negb (Ascii.eqb a ")"%char)) rest' in
          match url with
          | EmptyString => None
          | _ =>
              if startswith (drop (String.length url) rest') ")"
              then Some ("<a href=" ++ dq ++ url ++ dq ++ " target=" ++ dq
                           ++ "_blank" ++ dq ++ ">" ++ text ++ "</a>",
                         1 + String.length text + 2 + String.length url + 1)
              else None
          end
      | _, _ => None
      end
  | None => None
  end.

(** The position after the last newline of [s], if there is one. *)
Fixpoint after_last_newline (s : string) : option nat :=
  match s with
  | EmptyString => None
  | String c s' =>
      match after_last_newline s' with
      | Some k => Some (S k)
      | None => if Ascii.eqb c newline then Some 1 else None
      end
  end.

(** [\n\s*\n] to [</p><p>]: the greedy [\s*] is given back up to the last
    newline of the whitespace run. *)
Definition match_blank_line : Matcher := fun s =>
  match strip_prefix nl s with
  | Some rest =>
      match after_last_newline (take_while is_space rest) with
      | Some k => Some ("</p><p>", 1 + k)
      | None => None
      end
  | None => None
  end.

(** [<p>\s*</p>] to the empty string *)
Definition match_empty_paragraph : Matcher := fun s =>
  match strip_prefix "<p>" s with
  | Some rest =>
      let ws := take_while is_space rest in
      if startswith (drop (String.length ws) rest) "</p>"
      then Some (EmptyString, 3 + String.length ws + 4)
      else None
  | None => None
  end.

(** [\n] to [<br>] *)
Definition match_newline : Matcher := fun s =>
  match strip_prefix nl s with
  | Some _ => Some ("<br>", 1)
  | None => None
  end.

(** [(.+?)close] at the start of [s]: the length of the shortest non-empty
    run of characters other than the newline that is followed by [close]. *)
Fixpoint lazy_until (close : string) (s : string) : option nat :=
  match s with
  | EmptyString => None
  | String c s' =>
      if Ascii.eqb c newline then None
      else if startswith s' close then Some 1
      else option_map S (lazy_until close s')
  end.

(** [\s+(.+?)</p>] at the start of [s], where [s] starts with a whitespace
    run of which [ws] characters are tried first, then fewer: the number of
    whitespace characters taken and the length of the group. *)
Fixpoint spaces_then_item (ws : nat) (s : string) : option (nat * nat) :=
  match ws with
  | O => None
  | S k =>
      match lazy_until "</p>" (drop ws s) with
      | Some len => Some (ws, len)
      | None => spaces_then_item k s
      end
  end.

Definition match_item_body (head : nat) (s : string) : option (string * nat) :=
  match spaces_then_item (String.length (take_while is_space s)) s with
  | Some (ws, len) =>
      Some ("<li>" ++ take len (drop ws s) ++ "</li>", head + ws + len + 4)
  | None => None
  end.

(** [<p>(\d+)\.\s+(.+?)</p>] to [<li>\2</li>] *)
Definition match_numbered_item : Matcher := fun s =>
  match strip_prefix "<p>" s with
  | Some rest =>
      let digits := take_while is_digit rest in
      match digits, strip_prefix "." (drop (String.length digits) rest) with
      | String _ _, Some rest' =>
          match_item_body (3 + String.length digits + 1) rest'
      | _, _ => None
      end
  | None => None
  end.

(** [<p>[-*]\s+(.+?)</p>] to [<li>\1</li>] *)
Definition match_bullet_item : Matcher := fun s =>
  match strip_prefix "<p>" s with
  | Some (String c rest) =>
      if Ascii.eqb c "-"%char || Ascii.eqb c "*"%char
      then match_item_body 4 rest
      else None
  | _ => None
  end.

(** [re.search(r'^\d+\.', line)] *)
Definition starts_numbered (line : string) : bool :=
  match take_while is_digit line with
  | EmptyString => false
  | digits => startswith (drop (String.length digits) line) "."
  end.

(** *** The text pipeline of [generate_html] *)

(** The six heading substitutions of the first loop ([re.sub] with the
    marker anchored at the start of the line and a group for the rest of
    the line), on a line without newline: the substitution applies when
    the line itself (not stripped) starts with the marker. *)
Definition sub_heading (marker level : string) (line : string) : string :=
  match strip_prefix marker line with
  | Some title => "<h" ++ level ++ ">" ++ title ++ "</h" ++ level ++ ">"
  | None => line
  end.

Definition heading_line (line : string) : string :=
  let stripped := strip line in
  if startswith stripped "# " then sub_heading "# " "1" line
  else if startswith stripped "## " then sub_heading "## " "2" line
  else if startswith stripped "### " then sub_heading "### " "3" line
  else if startswith stripped "#### " then sub_heading "#### " "4" line
  else if startswith stripped "##### " then sub_heading "##### " "5" line
  else if startswith stripped "###### " then sub_heading "###### " "6" line
  else line.

(** The first loop over the lines: fence lines toggle [in_code_block] and
    lines inside a code block are kept as they are. *)
Fixpoint mark_headings (in_code_block : bool) (lines : list string)
  : list string :=
  match lines with
  | [] => []
  | line :: rest =>
      if startswith (strip line) fence
      then line :: mark_headings (negb in_code_block) rest
      else if in_code_block then line :: mark_headings in_code_block rest
      else heading_line line :: mark_headings in_code_block rest
  end.

Definition replace_code_block (code_content : string) : string :=
  let lines := split_char newline code_content in
  if (1 <? List.length lines)%nat
  then fence ++ nl ++ join nl (tl lines) ++ nl ++ fence
  else fence ++ nl ++ fence.

Definition clean_content_after_code (content : string) : string :=
  match content with
  | EmptyString => content
  | _ => re_sub (match_fence replace_code_block) content
  end.

Definition pre_open : string :=
  "<pre class=" ++ dq ++ "code-block" ++ dq ++ " style=" ++ dq ++ "position: relative; margin-top: 0; padding: 8px 8px 8px 8px;" ++ dq ++ "><button class=" ++ dq ++ "copy-button" ++ dq ++ " onclick=" ++ dq ++ "const codeContent = this.parentElement.textContent.replace('⮻', '').trim(); navigator.clipboard.writeText(codeContent).then(() => {this.textContent = '✅ Copié !'; this.style.background = '#4caf50'; setTimeout(() => {this.textContent = '⮻'; this.style.background = 'transparent';}, 2000);}).catch(() => {this.textContent = '❌ Erreur'; setTimeout(() => {this.textContent = '⮻';}, 2000);});" ++ dq ++ ">⮻</button><div class=" ++ dq ++ "code-content" ++ dq ++ ">".

Definition pre_close : string := "</div></pre>".

Definition add_copy_button (code_content : string) : string :=
  let lines := split_char newline code_content in
  let clean_code :=
    if (1 <? List.length lines)%nat then join nl (tl lines) else code_content in
  pre_open ++ clean_code ++ pre_close.

(** The second loop, over the pieces between [<br>]: a run of lines that
    start with [<li>] is put between an opening and a closing list tag. *)
Fixpoint group_lists (in_list : bool) (list_type : string)
    (lines : list string) : list string :=
  match lines with
  | [] => if in_list then ["</" ++ list_type ++ ">"] else []
  | line :: rest =>
      if startswith (strip line) "<li>" then
        if in_list then line :: group_lists true list_type rest
        else
          let list_type := if starts_numbered line then "ol" else "ul" in
          ("<" ++ list_type ++ ">") :: line :: group_lists true list_type rest
      else
        if in_list
        then ("</" ++ list_type ++ ">") :: line
               :: group_lists false list_type rest
        else line :: group_lists false list_type rest
  end.

(** The code blocks, when the text has a fence. *)
Definition render_code (content : string) : string :=
  if contains content fence
  then re_sub (match_fence add_copy_button) (clean_content_after_code content)
  else content.

(** The inline spans, the paragraphs and the list items. *)
Definition render_prose (content : string) : string :=
  let content := re_sub match_bold content in
  let content := re_sub match_italic content in
  let content := re_sub match_link content in
  let content := re_sub match_blank_line content in
  let content := "<p>" ++ content ++ "</p>" in
  let content := re_sub match_empty_paragraph content in
  let content := re_sub match_newline content in
  let content := re_sub match_numbered_item content in
  let content := re_sub match_bullet_item content in
  join "<br>" (group_lists false "None" (split "<br>" content)).

(** From the extracted content of a node to the markup placed in its
    [node-content] element. *)
Definition generate_html_content (content : string) : string :=
  let content := replace_char ">"%char "&gt;" (replace_char "<"%char "&lt;" content) in
  let content := join nl (mark_headings false (split_char newline content)) in
  render_prose (render_code content).

(** The [has_code] flag of a node. *)
Definition has_code (content : string) : bool :=
  let content := replace_char ">"%char "&gt;" (replace_char "<"%char "&lt;" content) in
  contains (join nl (mark_headings false (split_char newline content))) fence.

(** *** Reading the rendered markup *)

(** The number of occurrences of [p] in [s] ([s.count(p)]). *)
Definition count_sub (p s : string) : nat := List.length (split p s) - 1.

(** The text of the first [code-content] element of [html]. *)
Definition code_body (html : string) : option string :=
  match split ("<div class=" ++ dq ++ "code-content" ++ dq ++ ">") html with
  | _ :: after :: _ =>
      match split pre_close after with
      | body :: _ => Some body
      | [] => None
      end
  | _ => None
  end.

(** The code block of the specification's example: a fence tagged
    [python] around one line, [print("**not bold**")]. *)
Definition code_line : string := "print(" ++ dq ++ "**not bold**" ++ dq ++ ")".
Definition code_example : string :=
  fence ++ "python" ++ nl ++ code_line ++ nl ++ fence.

(** Three bullet lines followed by a blank line. *)
Definition bullets_example : string :=
  "- a" ++ nl ++ "- b" ++ nl ++ "- c" ++ nl ++ nl.

(** *** Texts without markup *)

(** Every character of [s] satisfies [f]. *)
Fixpoint all_chars (f : ascii -> bool) (s : string) : bool :=
  match s with
  | EmptyString => true
  | String c s' => f c && all_chars f s'
  end.

Definition differs (a : ascii) (c : ascii) : bool := negb (Ascii.eqb c a).

(** The first step of [generate_html_content]. *)
Definition escape (content : string) : string :=
  replace_char ">"%char "&gt;" (replace_char "<"%char "&lt;" content).

(** None of the characters that start a construct of the renderer. *)
Definition inert (c : ascii) : bool :=
  differs "<"%char c && differs ">"%char c && differs "*"%char c
  && differs "["%char c && differs newline c && differs "`"%char c
  && differs "#"%char c.

(** A character that is inert once escaped. *)
Definition plain_char (c : ascii) : bool :=
  differs "*"%char c && differs "["%char c && differs newline c
  && differs "`"%char c && differs "#"%char c.

(** The first character is neither a blank, nor a digit, nor a dash. *)
Definition plain_start (s : string) : bool :=
  match s with
  | String c _ =>
      negb (is_space c) && negb (is_digit c) && differs "-"%char c
  | EmptyString => false
  end.

Definition is_ascii (c : ascii) : bool := (nat_of_ascii c <? 128)%nat.

(** An ASCII text of one line made of plain characters (angle brackets
    allowed) that does not start like a list item. *)
Definition is_plain_text (s : string) : bool :=
  plain_start s && all_chars (fun c => is_ascii c && plain_char c) s.


(** [k] hash signs, and the digit of a heading level. *)
Fixpoint hashes (k : nat) : string :=
  match k with
  | O => EmptyString
  | S k' => String "#"%char (hashes k')
  end.

Definition level_digit (k : nat) : string :=
  String (ascii_of_nat (48 + k)) EmptyString.

End Markup.

(** ** Edge router (JavaScript, the viewer script) *)

Module Router.
Open Scope R_scope.

Record Point := mkPoint { px : R; py : R }.

(** A node as [loadCanvasData] reads it back from the page. *)
Record Node := mkNode {
  id : string;
  x : R;
  y : R;
  width : R;
  height : R
}.

(** The value of [edge.fromSide] or [edge.toSide]: one of the four side
    names, or any other string. *)
Inductive Side := Top | Bottom | Left | Right | Other (name : string).

Definition side_eqb (a b : Side) : bool :=
  match a, b with
  | Top, Top | Bottom, Bottom | Left, Left | Right, Right => true
  | Other s, Other t => String.eqb s t
  | _, _ => false
  end.

Record Edge := mkEdge {
  edge_id : string;
  fromNode : string;
  toNode : string;
  fromSide : option Side;   (* [None]: absent or empty *)
  toSide : option Side;
  label : option string
}.

(** [edge.fromSide || 'right'] *)
Definition or_default (s : option Side) (d : Side) : Side :=
  match s with Some v => v | None => d end.

Definition calculateAnchorPoint
    (node targetNode : Node) (side : Side) (isArrival : bool) : Point :=
  let centerX := x node + width node / 2 in
  let centerY := y node + height node / 2 in
  let offset := if isArrival then 30 else 0 in
  match side with
  | Top => mkPoint centerX (y node - offset)
  | Bottom => mkPoint centerX (y node + height node + offset)
  | Left => mkPoint (x node - offset) centerY
  | Right => mkPoint (x node + width node + offset) centerY
  | Other _ =>
      let dx := x targetNode - x node in
      let dy := y targetNode - y node in
      if Rltb (Rabs dy) (Rabs dx) then
        if Rltb 0 dx then mkPoint (x node + width node + offset) centerY
        else mkPoint (x node - offset) centerY
      else
        if Rltb 0 dy then mkPoint centerX (y node + height node + offset)
        else mkPoint centerX (y node - offset)
  end.

Definition perpendicular_control (anchor : Point) (side : Side) : Point :=
  let offset := 80 in
  match side with
  | Top => mkPoint (px anchor) (py anchor - offset)
  | Bottom => mkPoint (px anchor) (py anchor + offset)
  | Left => mkPoint (px anchor - offset) (py anchor)
  | Right => mkPoint (px anchor + offset) (py anchor)
  | Other _ => anchor
  end.

(** Returns [(fromControl, toControl)]. *)
Definition createPerpendicularControlPoints
    (fromAnchor toAnchor : Point) (fromSide toSide : Side) : Point * Point :=
  (perpendicular_control fromAnchor fromSide,
   perpendicular_control toAnchor toSide).

Definition adjustArrowEndPoint (toAnchor : Point) (toSide : Side) : Point :=
  toAnchor.

(** The [d] attribute of the SVG path: [M a L b L c L d] or [M a C b c d]. *)
Inductive PathSpec :=
| Polyline (a b c d : Point)
| Cubic (a b c d : Point).

(** What [drawEdge] appends to the edges layer: the path, and the label text
    placed at [(labelX, labelY)] when the edge has a non-empty label. *)
Record Drawing := mkDrawing {
  drawn_path : PathSpec;
  label_point : Point;
  label_text : option string
}.

(** What the cubic branch computes and only writes to the console. *)
Record Logged := mkLogged {
  log_direction : R;
  log_offset : R;
  log_perp : Point;
  log_mid_control : Point
}.

(** [Math.random()]: the script's source of random numbers, threaded as the
    position in a sequence of draws. *)
Definition Rand (A : Type) : Type := (nat -> R) -> nat -> A * nat.

Definition ret {A} (a : A) : Rand A := fun _ i => (a, i).

Definition bind {A B} (m : Rand A) (k : A -> Rand B) : Rand B :=
  fun rnd i => let (a, j) := m rnd i in k a rnd j.

Definition random : Rand R := fun rnd i => (rnd i, S i).

Notation "v <- m ;; k" := (bind m (fun v => k))
  (at level 61, m at next level, right associativity).

Fixpoint forEach {A B} (f : A -> Rand B) (l : list A) : Rand (list B) :=
  match l with
  | [] => ret []
  | a :: l' => b <- f a ;; bs <- forEach f l' ;; ret (b :: bs)
  end.

(** [Math.random() > 0.5 ? 1 : -1] *)
Definition random_direction : Rand R :=
  v <- random ;; ret (if Rltb 0.5 v then 1 else -1).

(** The direction chosen for a same-side connection. *)
Definition same_side_direction (fromSide toSide : Side) : Rand R :=
  match fromSide, toSide with
  | Left, Left => ret (-1)
  | Right, Right => ret 1
  | Top, Top => ret (-1)
  | Bottom, Bottom => ret 1
  | _, _ => random_direction
  end.

(** The label text is drawn when [edge.label] is truthy. *)
Definition truthy (s : option string) : option string :=
  match s with
  | Some EmptyString => None
  | other => other
  end.

(** [drawEdge] once both endpoints are found. *)
Definition drawEdge_between (fromNode toNode : Node) (edge : Edge)
  : Rand (Drawing * option Logged) :=
  let fromAnchor :=
    calculateAnchorPoint fromNode toNode (or_default (fromSide edge) Right) false in
  let toAnchor :=
    calculateAnchorPoint toNode fromNode (or_default (toSide edge) Left) true in
  let midX := (px fromAnchor + px toAnchor) / 2 in
  let midY := (py fromAnchor + py toAnchor) / 2 in
  let dx := px toAnchor - px fromAnchor in
  let dy := py toAnchor - py fromAnchor in
  let distance := sqrt (dx * dx + dy * dy) in
  let baseOffset := Rmin (distance * 0.4) 60 in
  u <- random ;;
  let randomFactor := 0.8 + u * 0.4 in
  let offset := baseOffset * randomFactor in
  let isHorizontalPerfect := Rltb (Rabs (py fromAnchor - py toAnchor)) 1 in
  let isHorizontalConnection := Rltb (Rabs dy * 3) (Rabs dx) in
  let isVerticalPerfect := Rltb (Rabs (px fromAnchor - px toAnchor)) 1 in
  let isVerticalConnection := Rltb (Rabs dx * 3) (Rabs dy) in
  let fromSide := or_default (fromSide edge) Right in
  let toSide := or_default (toSide edge) Left in
  let sameSideConnection := side_eqb fromSide toSide in
  let controlPoints :=
    createPerpendicularControlPoints fromAnchor toAnchor fromSide toSide in
  if isHorizontalPerfect && isHorizontalConnection && negb sameSideConnection
  then
    ret (mkDrawing
           (Polyline fromAnchor (fst controlPoints) (snd controlPoints) toAnchor)
           (mkPoint ((px fromAnchor + px toAnchor) / 2) (py fromAnchor))
           (truthy (label edge)),
         None)
  else if isVerticalPerfect && isVerticalConnection && negb sameSideConnection
  then
    ret (mkDrawing
           (Polyline fromAnchor (fst controlPoints) (snd controlPoints) toAnchor)
           (mkPoint (px fromAnchor) ((py fromAnchor + py toAnchor) / 2))
           (truthy (label edge)),
         None)
  else
    choice <-
      (if sameSideConnection then
         direction <- same_side_direction fromSide toSide ;;
         ret (direction, Rmin (offset * 1.2) 40)
       else
         direction <- random_direction ;;
         ret (direction, offset)) ;;
    let direction := fst choice in
    let offset := snd choice in
    let perp :=
      if Rltb (Rabs dy) (Rabs dx) then mkPoint 0 (direction * offset)
      else mkPoint (direction * offset) 0 in
    let midControl := mkPoint (midX + px perp) (midY + py perp) in
    let adjustedEndPoint := adjustArrowEndPoint toAnchor toSide in
    let t := 0.5 in
    let oneMinusT := 1 - t in
    let oneMinusTSquared := oneMinusT * oneMinusT in
    let oneMinusTCubed := oneMinusTSquared * oneMinusT in
    let tSquared := t * t in
    let tCubed := tSquared * t in
    let labelX :=
      oneMinusTCubed * px fromAnchor
      + 3 * oneMinusTSquared * t * px (fst controlPoints)
      + 3 * oneMinusT * tSquared * px (snd controlPoints)
      + tCubed * px adjustedEndPoint in
    let labelY :=
      oneMinusTCubed * py fromAnchor
      + 3 * oneMinusTSquared * t * py (fst controlPoints)
      + 3 * oneMinusT * tSquared * py (snd controlPoints)
      + tCubed * py adjustedEndPoint in
    ret (mkDrawing
           (Cubic fromAnchor (fst controlPoints) (snd controlPoints)
                  adjustedEndPoint)
           (mkPoint labelX labelY)
           (truthy (label edge)),
         Some (mkLogged direction offset perp midControl)).

(** [this.nodes.find(n => n.id === key)] *)
Definition find_node (nodes : list Node) (key : string) : option Node :=
  find (fun n => String.eqb (id n) key) nodes.

(** [drawEdge]: nothing is drawn, and no random number is taken, when an
    endpoint is missing. *)
Definition drawEdge (nodes : list Node) (edge : Edge)
  : Rand (option (Drawing * option Logged)) :=
  match find_node nodes (fromNode edge), find_node nodes (toNode edge) with
  | Some fromNode, Some toNode =>
      r <- drawEdge_between fromNode toNode edge ;; ret (Some r)
  | _, _ => ret None
  end.

Definition drawEdges (nodes : list Node) (edges : list Edge)
  : Rand (list (option (Drawing * option Logged))) :=
  forEach (drawEdge nodes) edges.

(** The contents of the edges layer after [drawEdges]. *)
Definition edges_layer (nodes : list Node) (edges : list Edge)
    (rnd : nat -> R) : list (option Drawing) :=
  map (option_map fst) (fst (drawEdges nodes edges rnd 0%nat)).

(** *** The router in the words of the specification *)

(** The point at parameter [t] of the cubic Bezier curve with control points
    [p0 p1 p2 p3], in the Bernstein basis. *)
Definition bernstein3 (p0 p1 p2 p3 : R) (t : R) : R :=
  (1 - t) ^ 3 * p0 + 3 * (1 - t) ^ 2 * t * p1
  + 3 * (1 - t) * t ^ 2 * p2 + t ^ 3 * p3.

Definition bezier_point (p0 p1 p2 p3 : Point) (t : R) : Point :=
  mkPoint (bernstein3 (px p0) (px p1) (px p2) (px p3) t)
          (bernstein3 (py p0) (py p1) (py p2) (py p3) t).

Definition chord_midpoint (p0 p3 : Point) : Point :=
  mkPoint ((px p0 + px p3) / 2) ((py p0 + py p3) / 2).

(** The point at parameter [t] of a drawn path that is a cubic curve. *)
Definition path_point (p : PathSpec) (t : R) : option Point :=
  match p with
  | Cubic a b c d => Some (bezier_point a b c d t)
  | Polyline _ _ _ _ => None
  end.


(** The direction of the displacement: fixed for the four same-side
    pairs, otherwise taken from the random draw [v]. *)
Definition direction_rule (fs ts : Side) (v : R) : R :=
  match fs, ts with
  | Left, Left => -1
  | Right, Right => 1
  | Top, Top => -1
  | Bottom, Bottom => 1
  | _, _ => if Rltb 0.5 v then 1 else -1
  end.

(** What the cubic branch computes beside the path: the offset, its
    direction, the perpendicular vector and the displaced chord midpoint.
    [u] and [v] are the first and second random draws of the call. *)
Definition computed_displacement
    (fs ts : Side) (p0 p3 : Point) (u v : R) (L : Logged) : Prop :=
  let dx := px p3 - px p0 in
  let dy := py p3 - py p0 in
  let jittered := Rmin (sqrt (dx * dx + dy * dy) * 0.4) 60 * (0.8 + u * 0.4) in
  log_offset L
    = (if side_eqb fs ts then Rmin (jittered * 1.2) 40 else jittered) /\
  log_direction L = direction_rule fs ts v /\
  log_perp L
    = (if Rltb (Rabs dy) (Rabs dx)
       then mkPoint 0 (log_direction L * log_offset L)
       else mkPoint (log_direction L * log_offset L) 0) /\
  log_mid_control L
    = mkPoint ((px p0 + px p3) / 2 + px (log_perp L))
              ((py p0 + py p3) / 2 + py (log_perp L)).

(** The two rectangles of the specification's routing example. *)
Definition rectA : Node := mkNode "A" 0 0 100 50.
Definition rectB : Node := mkNode "B" 300 0 100 50.

(** A diagonal right-to-left connection, drawn as a cubic curve. *)
Definition rectC : Node := mkNode "C" 430 400 100 50.
Definition edgeAC : Edge :=
  mkEdge "e1" "A" "C" (Some Right) (Some Left) (Some "uses"%string).
Definition half_draws : nat -> R := fun _ => 1 / 2.
Definition drawingAC : Drawing :=
  mkDrawing (Cubic (mkPoint 100 25) (mkPoint 180 25)
                   (mkPoint 320 425) (mkPoint 400 425))
            (mkPoint 250 225) (Some "uses"%string).
Definition loggedAC : Logged :=
  mkLogged (-1) 60 (mkPoint (-60) 0) (mkPoint 190 225).

(** No node of [nodes] carries the identifier of one of the endpoints of
    [edge]. *)
Definition missing_endpoint (nodes : list Node) (edge : Edge) : Prop :=
  (forall n, In n nodes -> id n <> fromNode edge) \/
  (forall n, In n nodes -> id n <> toNode edge).

(** [p] lies on the border of the rectangle of [node]. *)
Definition on_border (node : Node) (p : Point) : Prop :=
  x node <= px p <= x node + width node /\
  y node <= py p <= y node + height node /\
  (px p = x node \/ px p = x node + width node \/
   py p = y node \/ py p = y node + height node).

(** The edge from A to B of the routing example, with the default
    sides. *)
Definition edgeAB : Edge := mkEdge "e0" "A" "B" None None None.

End Router.

(** ** Colours (Python) *)

Module Palette.
Open Scope string_scope.

(** The value found under the [color] key of a node or an edge: absent, a
    string, another JSON scalar (number, boolean, null), or a list or an
    object. *)
Inductive ColorValue :=
| NoColor
| ColorString (s : string)
| ColorScalar
| ColorCompound.

(** [color_map], the same in [get_node_color] and [get_edge_color]. *)
Definition color_map : list (string * string) :=
  [ ("1", "#ff6b6b"); ("2", "#ffa726"); ("3", "#ffeb3b"); ("4", "#4caf50");
    ("5", "#00bcd4"); ("6", "#9c27b0"); ("7", "#2196f3"); ("8", "#795548");
    ("9", "#607d8b"); ("10", "#e91e63") ].

(** [color_map.get(key, default)] for a string key. *)
Definition dict_get (m : list (string * string)) (key default : string)
  : string :=
  match find (fun entry => String.eqb (fst entry) key) m with
  | Some entry => snd entry
  | None => default
  end.

(** The colour of a node or an edge, for the code [missing] used when the
    key is absent and the fallback colour [default]; [None] stands for the
    [TypeError] raised when a list or an object is looked up in the
    dictionary. *)
Definition get_color (missing default : string) (color : ColorValue)
  : option string :=
  match color with
  | NoColor => Some (dict_get color_map missing default)
  | ColorString s =>
      if Markup.startswith s "#" then Some s
      else Some (dict_get color_map s default)
  | ColorScalar => Some default
  | ColorCompound => None
  end.

Definition get_node_color : ColorValue -> option string :=
  get_color "4" "#4caf50".

Definition get_edge_color : ColorValue -> option string :=
  get_color "3" "#ffeb3b".

End Palette.

(** ** Viewer: zoom and scroll (JavaScript) *)

Module Viewer.
Import Router.
Open Scope R_scope.

Definition Reqb (a b : R) : bool := if Req_EM_T a b then true else false.

(** The size of the scroll container ([clientWidth], [clientHeight]). *)
Record Viewport := mkViewport { clientWidth : R; clientHeight : R }.

(** The fields of the viewer that the zoom and pan handlers read and
    write; [scroll_enabled] stands for the [scroll-enabled] class of the
    container, the mouse position is absent until the first [mousemove],
    and [panStart], [scrollStart] are only read while [isPanning]. *)
Record State := mkState {
  zoom : R;
  optimalZoom : R;
  scrollLeft : R;
  scrollTop : R;
  scroll_enabled : bool;
  lastMouseX : option R;
  lastMouseY : option R;
  isPanning : bool;
  panStart : Point;
  scrollStart : Point
}.

(** The state after the constructor: [zoom = 1], [optimalZoom = 1]. *)
Definition initial : State :=
  mkState 1 1 0 0 false None None false (mkPoint 0 0) (mkPoint 0 0).

Definition with_zoom (z : R) (st : State) : State :=
  mkState z (optimalZoom st) (scrollLeft st) (scrollTop st)
          (scroll_enabled st) (lastMouseX st) (lastMouseY st)
          (isPanning st) (panStart st) (scrollStart st).

Definition with_optimal (z : R) (enabled : bool) (st : State) : State :=
  mkState (zoom st) z (scrollLeft st) (scrollTop st)
          enabled (lastMouseX st) (lastMouseY st)
          (isPanning st) (panStart st) (scrollStart st).

Definition with_scroll (left top : R) (st : State) : State :=
  mkState (zoom st) (optimalZoom st) left top
          (scroll_enabled st) (lastMouseX st) (lastMouseY st)
          (isPanning st) (panStart st) (scrollStart st).

(** [v || d] on a number that may be undefined: [0] counts as absent. *)
Definition or_else (v : option R) (d : R) : R :=
  match v with
  | Some r => if Reqb r 0 then d else r
  | None => d
  end.

(** [maxX - minX] and [maxY - minY] over a non-empty list of nodes. *)
Definition contentWidth (n : Node) (ns : list Node) : R :=
  py_max (x n + width n) (map (fun m => x m + width m) ns)
  - py_min (x n) (map x ns).

Definition contentHeight (n : Node) (ns : list Node) : R :=
  py_max (y n + height n) (map (fun m => y m + height m) ns)
  - py_min (y n) (map y ns).

(** The zoom at which the content fits the viewport less 100 units, at
    most 1 and at least 0.1: the computation shared by [centerView] and
    [calculateMinZoom]. *)
Definition fitZoom (vp : Viewport) (n : Node) (ns : list Node) : R :=
  let margin := 100 in
  let scaleX := (clientWidth vp - margin) / contentWidth n ns in
  let scaleY := (clientHeight vp - margin) / contentHeight n ns in
  let optimalZoom := Rmin (Rmin scaleX scaleY) 1 in
  Rmax optimalZoom 0.1.

(** [calculateMinZoom].  Without nodes the bounds are infinite, both
    scales are zero and the result is the floor, 0.1. *)
Definition calculateMinZoom (vp : Viewport) (nodes : list Node) : R :=
  match nodes with
  | n :: ns => fitZoom vp n ns
  | [] => 0.1
  end.

(** [applyZoom]: an optimal zoom of 1 is replaced by the current zoom;
    scrolling is enabled unless the zoom is within 0.05 of the optimal
    zoom. *)
Definition applyZoom (st : State) : State :=
  let optimal := if Reqb (optimalZoom st) 1 then zoom st else optimalZoom st in
  let isOptimal := Rltb (Rabs (zoom st - optimal)) 0.05 in
  with_optimal optimal (negb isOptimal) st.

(** [applyZoomWithMouseFocus]; the new zoom is already in the state. *)
Definition applyZoomWithMouseFocus (relativeX relativeY oldZoom : R)
    (st : State) : State :=
  let st := applyZoom st in
  let mouseX := relativeX * oldZoom - scrollLeft st in
  let mouseY := relativeY * oldZoom - scrollTop st in
  let newScrollLeft := relativeX * zoom st - mouseX in
  let newScrollTop := relativeY * zoom st - mouseY in
  with_scroll newScrollLeft newScrollTop st.

(** [centerView] (also [zoomReset]). *)
Definition centerView (vp : Viewport) (nodes : list Node) (st : State)
  : State :=
  match nodes with
  | [] => st
  | n :: ns =>
      let minX := py_min (x n) (map x ns) in
      let maxX := py_max (x n + width n) (map (fun m => x m + width m) ns) in
      let minY := py_min (y n) (map y ns) in
      let maxY := py_max (y n + height n) (map (fun m => y m + height m) ns) in
      let finalZoom := fitZoom vp n ns in
      let st := with_zoom finalZoom st in
      let st := with_optimal finalZoom (scroll_enabled st) st in
      let st := applyZoom st in
      let centerX := (minX + maxX) / 2 in
      let centerY := (minY + maxY) / 2 in
      with_scroll (centerX * zoom st - clientWidth vp / 2)
                  (centerY * zoom st - clientHeight vp / 2) st
  end.

(** [handleWheel]: [rect] is the top-left corner of the canvas rectangle
    as measured at the event, [mouse] the pointer. *)
Definition handleWheel (vp : Viewport) (nodes : list Node)
    (ctrlKey : bool) (deltaY : R) (mouse rect : Point) (st : State) : State :=
  if ctrlKey then
    let relativeX := (px mouse - px rect) / zoom st + scrollLeft st / zoom st in
    let relativeY := (py mouse - py rect) / zoom st + scrollTop st / zoom st in
    let oldZoom := zoom st in
    let delta := if Rltb 0 deltaY then 0.9 else 1.1 in
    let z := zoom st * delta in
    let minZoom := calculateMinZoom vp nodes in
    let z := Rmax minZoom (Rmin 3 z) in
    applyZoomWithMouseFocus relativeX relativeY oldZoom (with_zoom z st)
  else st.

Definition zoomIn (vp : Viewport) (rect : Point) (st : State) : State :=
  let oldZoom := zoom st in
  let z := Rmin (zoom st * 1.2) 3 in
  let mouseX := or_else (lastMouseX st) (clientWidth vp / 2) in
  let mouseY := or_else (lastMouseY st) (clientHeight vp / 2) in
  let relativeX := (mouseX - px rect) / oldZoom + scrollLeft st / oldZoom in
  let relativeY := (mouseY - py rect) / oldZoom + scrollTop st / oldZoom in
  applyZoomWithMouseFocus relativeX relativeY oldZoom (with_zoom z st).

Definition zoomOut (vp : Viewport) (nodes : list Node) (rect : Point)
    (st : State) : State :=
  let oldZoom := zoom st in
  let z := zoom st / 1.2 in
  let minZoom := calculateMinZoom vp nodes in
  let z := Rmax minZoom z in
  let mouseX := or_else (lastMouseX st) (clientWidth vp / 2) in
  let mouseY := or_else (lastMouseY st) (clientHeight vp / 2) in
  let relativeX := (mouseX - px rect) / oldZoom + scrollLeft st / oldZoom in
  let relativeY := (mouseY - py rect) / oldZoom + scrollTop st / oldZoom in
  applyZoomWithMouseFocus relativeX relativeY oldZoom (with_zoom z st).

(** [startPanning]: nothing happens when the press is on a node. *)
Definition startPanning (onNode : bool) (mouse : Point) (st : State) : State :=
  if onNode then st
  else mkState (zoom st) (optimalZoom st) (scrollLeft st) (scrollTop st)
               (scroll_enabled st) (lastMouseX st) (lastMouseY st)
               true mouse (mkPoint (scrollLeft st) (scrollTop st)).

(** [pan] *)
Definition pan (mouse : Point) (st : State) : State :=
  if isPanning st then
    let deltaX := px mouse - px (panStart st) in
    let deltaY := py mouse - py (panStart st) in
    with_scroll (px (scrollStart st) - deltaX) (py (scrollStart st) - deltaY) st
  else st.

(** [stopPanning] *)
Definition stopPanning (st : State) : State :=
  mkState (zoom st) (optimalZoom st) (scrollLeft st) (scrollTop st)
          (scroll_enabled st) (lastMouseX st) (lastMouseY st)
          false (panStart st) (scrollStart st).

(** The two [mousemove] listeners, in the order they are registered. *)
Definition mouseMoved (mouse : Point) (st : State) : State :=
  let st := pan mouse st in
  mkState (zoom st) (optimalZoom st) (scrollLeft st) (scrollTop st)
          (scroll_enabled st) (Some (px mouse)) (Some (py mouse))
          (isPanning st) (panStart st) (scrollStart st).

(** The events of the viewer, and the run of a sequence of events from a
    state. *)
Inductive Event :=
| Wheel (ctrlKey : bool) (deltaY : R) (mouse rect : Point)
| ZoomIn (rect : Point)
| ZoomOut (rect : Point)
| ZoomReset
| MouseDown (onNode : bool) (mouse : Point)
| MouseMove (mouse : Point)
| MouseUp.

Definition handle (vp : Viewport) (nodes : list Node) (st : State)
    (ev : Event) : State :=
  match ev with
  | Wheel ctrlKey deltaY mouse rect =>
      handleWheel vp nodes ctrlKey deltaY mouse rect st
  | ZoomIn rect => zoomIn vp rect st
  | ZoomOut rect => zoomOut vp nodes rect st
  | ZoomReset => centerView vp nodes st
  | MouseDown onNode mouse => startPanning onNode mouse st
  | MouseMove mouse => mouseMoved mouse st
  | MouseUp => stopPanning st
  end.

Definition run (vp : Viewport) (nodes : list Node) (events : list Event)
    (st : State) : State :=
  fold_left (handle vp nodes) events st.

(** Every node has a positive width and height, as [generate_html]
    writes them (at least 150 x 60). *)
Definition positive_sizes (nodes : list Node) : Prop :=
  Forall (fun n => 0 < width n /\ 0 < height n) nodes.

(** The nodes of a three-box board as the viewer reads them back, and a
    viewport of 1200 x 800. *)
Definition board3 : list Node :=
  [ mkNode "a" 200 300 150 60; mkNode "b" 500 300 150 60;
    mkNode "c" 800 300 150 60 ].
Definition screen : Viewport := mkViewport 1200 800.

End Viewer.

(** ** The whole render *)

Module Render.
Open Scope R_scope.

(** A text node of the board: its rectangle and its text. *)
Record BoardNode := mkBoardNode {
  geometry : Layout.Node;
  text : string
}.

(** A node box as [generate_html] writes it and [loadCanvasData] reads it
    back: the position is shifted by the offsets and the size is raised to
    at least 150 x 60. *)
Record NodeBox := mkNodeBox {
  box : Router.Node;
  content : string;
  box_has_code : bool
}.

Definition place (extent : Layout.CanvasExtent) (node : BoardNode) : NodeBox :=
  let g := geometry node in
  {| box := Router.mkNode (Layout.node_id g)
              (Layout.node_x g + Layout.offset_x extent)
              (Layout.node_y g + Layout.offset_y extent)
              (Rmax 150 (Layout.node_width g))
              (Rmax 60 (Layout.node_height g));
     content := Markup.generate_html_content (text node);
     box_has_code := Markup.has_code (text node) |}.

Record Page := mkPage {
  extent : Layout.CanvasExtent;
  boxes : list NodeBox;
  edges_layer : list (option Router.Drawing)
}.

(** [generate_html] followed by the viewer's [loadCanvasData] and
    [drawEdges], with [rnd] the sequence of values of [Math.random()]. *)
Definition full_render (nodes : list BoardNode) (edges : list Router.Edge)
    (rnd : nat -> R) : Page :=
  let extent := Layout.compute_extent (map geometry nodes) in
  let boxes := map (place extent) nodes in
  {| extent := extent;
     boxes := boxes;
     edges_layer := Router.edges_layer (map box boxes) edges rnd |}.

(** The same board node moved by [(dx, dy)]. *)
Definition translate (dx dy : R) (node : BoardNode) : BoardNode :=
  mkBoardNode (Layout.translate dx dy (geometry node)) (text node).

End Render.

(** * Properties *)

(** ** Sums, minima and maxima *)

Lemma fold_left_Rplus_acc (l : list R) (a : R) :
  fold_left Rplus l a = (a + fold_left Rplus l 0)%R.
Proof.
  revert a; induction l as [|b l IH]; intros a; simpl.
  - lra.
  - rewrite (IH (a + b)%R), (IH (0 + b)%R). lra.
Qed.

Lemma sum_cons (a : R) (l : list R) : sum (a :: l) = (a + sum l)%R.
Proof.
  unfold sum; simpl. rewrite fold_left_Rplus_acc. lra.
Qed.

Lemma sum_nil : sum [] = 0%R.
Proof. reflexivity. Qed.

Lemma sum_perm (l l' : list R) : Permutation l l' -> sum l = sum l'.
Proof.
  induction 1 as [|a l l' _ IH|a b l|l l' l'' _ IH1 _ IH2].
  - reflexivity.
  - rewrite !sum_cons, IH. reflexivity.
  - rewrite !sum_cons. lra.
  - congruence.
Qed.

(** Some element of a non-empty list is at most the mean. *)
Lemma exists_le_mean (l : list R) :
  l <> [] -> exists a, In a l /\ (a * INR (length l) <= sum l)%R.
Proof.
  induction l as [|a l IH]; [congruence|]. intros _.
  destruct l as [|b l].
  - exists a. split; [now left|]. rewrite sum_cons, sum_nil. simpl. lra.
  - destruct IH as [c [Hc Hle]]; [discriminate|].
    set (l' := b :: l) in *.
    assert (Hn : (0 <= INR (length l'))%R) by apply pos_INR.
    change (length (a :: l')) with (S (length l')).
    rewrite S_INR, sum_cons.
    destruct (Rle_dec a c) as [Hac|Hac].
    + exists a. split; [now left|]. nra.
    + exists c. split; [now right|]. nra.
Qed.

Lemma py_min_le_acc (l : list R) (a : R) : (py_min a l <= a)%R.
Proof.
  unfold py_min. revert a; induction l as [|b l IH]; intros a; simpl.
  - lra.
  - eapply Rle_trans; [apply IH|apply Rmin_l].
Qed.

Lemma py_min_le (l : list R) (a b : R) : In b l -> (py_min a l <= b)%R.
Proof.
  unfold py_min. revert a; induction l as [|c l IH]; intros a; simpl; [tauto|].
  intros [->|Hin].
  - eapply Rle_trans; [apply (py_min_le_acc l)|apply Rmin_r].
  - now apply IH.
Qed.

Lemma py_min_in (l : list R) (a : R) : py_min a l = a \/ In (py_min a l) l.
Proof.
  unfold py_min. revert a; induction l as [|c l IH]; intros a; simpl.
  - now left.
  - destruct (IH (Rmin a c)) as [H|H]; [|now right; right].
    rewrite H. unfold Rmin. destruct (Rle_dec a c); [now left|now right; left].
Qed.

Lemma py_max_ge_acc (l : list R) (a : R) : (a <= py_max a l)%R.
Proof.
  unfold py_max. revert a; induction l as [|b l IH]; intros a; simpl.
  - lra.
  - eapply Rle_trans; [apply Rmax_l|apply IH].
Qed.

Lemma py_max_ge (l : list R) (a b : R) : In b l -> (b <= py_max a l)%R.
Proof.
  unfold py_max. revert a; induction l as [|c l IH]; intros a; simpl; [tauto|].
  intros [->|Hin].
  - eapply Rle_trans; [apply Rmax_r|apply (py_max_ge_acc l)].
  - now apply IH.
Qed.

Lemma py_max_in (l : list R) (a : R) : py_max a l = a \/ In (py_max a l) l.
Proof.
  unfold py_max. revert a; induction l as [|c l IH]; intros a; simpl.
  - now left.
  - destruct (IH (Rmax a c)) as [H|H]; [|now right; right].
    rewrite H. unfold Rmax. destruct (Rle_dec a c); [now right; left|now left].
Qed.

(** ** Layout engine *)

Module LayoutFacts.
Import Layout.
Open Scope R_scope.

Lemma insert_by_key_perm d l : Permutation (insert_by_key d l) (d :: l).
Proof.
  induction l as [|e l IH]; simpl; [reflexivity|].
  destruct (Rleb (fst d) (fst e)); [reflexivity|].
  rewrite IH. apply perm_swap.
Qed.

Lemma sort_by_key_perm l : Permutation (sort_by_key l) l.
Proof.
  induction l as [|d l IH]; simpl; [reflexivity|].
  rewrite insert_by_key_perm. now constructor.
Qed.

Lemma sort_by_key_length l : length (sort_by_key l) = length l.
Proof. apply Permutation_length, sort_by_key_perm. Qed.

(** The sort is ascending on the distance. *)
Lemma insert_by_key_sorted d l :
  StronglySorted (fun a b => fst a <= fst b) l ->
  StronglySorted (fun a b => fst a <= fst b) (insert_by_key d l).
Proof.
  induction 1 as [|e l Hs IH Hall]; simpl.
  - repeat constructor.
  - unfold Rleb. destruct (Rle_dec (fst d) (fst e)) as [Hle|Hnle].
    + constructor; [now constructor|].
      constructor; [exact Hle|].
      eapply Forall_impl; [|exact Hall]. intros a Ha; simpl in *; lra.
    + constructor; [exact IH|].
      eapply Permutation_Forall; [symmetry; apply insert_by_key_perm|].
      constructor; [lra|exact Hall].
Qed.

Lemma sort_by_key_sorted l :
  StronglySorted (fun a b => fst a <= fst b) (sort_by_key l).
Proof.
  induction l as [|d l IH]; simpl; [constructor|].
  now apply insert_by_key_sorted.
Qed.

Lemma filter_perm {A} (f : A -> bool) (l l' : list A) :
  Permutation l l' -> Permutation (filter f l) (filter f l').
Proof.
  induction 1 as [|a l l' _ IH|a b l|l l' l'' _ IH1 _ IH2]; simpl.
  - reflexivity.
  - destruct (f a); [now constructor|exact IH].
  - destruct (f a), (f b); try reflexivity. apply perm_swap.
  - now transitivity (filter f l').
Qed.

Lemma filter_tagged (g : Node -> R) (p : R -> bool) (nodes : list Node) :
  map snd (filter (fun d => p (fst d)) (map (fun n => (g n, n)) nodes))
  = filter (fun n => p (g n)) nodes.
Proof.
  induction nodes as [|n nodes IH]; simpl; [reflexivity|].
  destruct (p (g n)); simpl; now rewrite IH.
Qed.

Section Unfolding.
Variable nodes : list Node.

Let tagged := map (fun n => (spec_distance nodes n, n)) nodes.

Lemma tagged_fst : map fst tagged = map (spec_distance nodes) nodes.
Proof.
  unfold tagged. rewrite map_map. reflexivity.
Qed.

Lemma sorted_mean :
  sum (map fst (sort_by_key tagged)) / INR (length (sort_by_key tagged))
  = spec_mean nodes.
Proof.
  unfold spec_mean.
  rewrite sort_by_key_length.
  rewrite (sum_perm _ (map fst tagged))
    by (apply Permutation_map, sort_by_key_perm).
  rewrite tagged_fst. unfold tagged. now rewrite length_map.
Qed.

Lemma sorted_stddev :
  sqrt (sum (map (fun d => (fst d - spec_mean nodes) ^ 2) (sort_by_key tagged))
        / INR (length (sort_by_key tagged)))
  = spec_stddev nodes.
Proof.
  unfold spec_stddev.
  rewrite sort_by_key_length.
  rewrite (sum_perm _ (map (fun d => (fst d - spec_mean nodes) ^ 2) tagged))
    by (apply Permutation_map, sort_by_key_perm).
  unfold tagged. now rewrite map_map, length_map.
Qed.

(** With more than two nodes the function keeps, from the sorted list of
    distances, the nodes at most [spec_threshold] away. *)
Lemma filter_main_nodes_unfold :
  (2 < length nodes)%nat ->
  filter_main_nodes nodes
  = map snd (filter (fun d => Rleb (fst d) (spec_threshold nodes))
                    (sort_by_key tagged)).
Proof.
  intros Hlen. unfold filter_main_nodes.
  destruct (Nat.leb_spec (length nodes) 1) as [H|_]; [lia|].
  change (map (fun n => (distance_from _ _ n, n)) nodes) with tagged.
  rewrite sort_by_key_length.
  replace (length tagged) with (length nodes)
    by (unfold tagged; now rewrite length_map).
  destruct (Nat.ltb_spec 2 (length nodes)) as [_|H]; [|lia].
  replace (length nodes) with (length (sort_by_key tagged))
    by (rewrite sort_by_key_length; unfold tagged; now rewrite length_map).
  rewrite sorted_mean, sorted_stddev. reflexivity.
Qed.
End Unfolding.

Lemma spec_stddev_nonneg nodes : 0 <= spec_stddev nodes.
Proof. unfold spec_stddev. apply sqrt_pos. Qed.

Lemma filter_main_nodes_small nodes :
  (length nodes <= 2)%nat -> filter_main_nodes nodes = nodes.
Proof.
  intros Hlen. unfold filter_main_nodes.
  destruct (Nat.leb_spec (length nodes) 1) as [_|_]; [reflexivity|].
  rewrite sort_by_key_length, length_map.
  destruct (Nat.ltb_spec 2 (length nodes)) as [H|_]; [lia|reflexivity].
Qed.

Lemma filter_main_nodes_perm nodes :
  (2 < length nodes)%nat ->
  Permutation (filter_main_nodes nodes) (filter (spec_is_main nodes) nodes).
Proof.
  intros Hlen. rewrite filter_main_nodes_unfold by exact Hlen.
  unfold spec_is_main.
  rewrite <- (filter_tagged (spec_distance nodes)
                (fun r => Rleb r (spec_threshold nodes)) nodes).
  apply Permutation_map, filter_perm, sort_by_key_perm.
Qed.

(** The node nearest the centroid is never cut. *)
Lemma filter_main_nodes_nonempty nodes :
  nodes <> [] -> filter_main_nodes nodes <> [].
Proof.
  intros Hne.
  destruct (Nat.le_gt_cases (length nodes) 2) as [Hle|Hgt].
  - now rewrite filter_main_nodes_small.
  - intros Hnil.
    pose proof (filter_main_nodes_perm nodes Hgt) as Hperm.
    rewrite Hnil in Hperm. apply Permutation_nil in Hperm.
    destruct (exists_le_mean (map (spec_distance nodes) nodes))
      as [a [Hin Hle]].
    { destruct nodes; [congruence|discriminate]. }
    apply in_map_iff in Hin. destruct Hin as [n [<- Hn]].
    assert (Hmain : In n (filter (spec_is_main nodes) nodes)).
    { apply filter_In. split; [exact Hn|].
      unfold spec_is_main, Rleb.
      destruct (Rle_dec _ _) as [_|Hnle]; [reflexivity|].
      exfalso; apply Hnle.
      unfold spec_threshold.
      pose proof (spec_stddev_nonneg nodes) as Hsd.
      assert (Hmean : spec_distance nodes n <= spec_mean nodes).
      { unfold spec_mean. rewrite length_map in Hle.
        assert (Hpos : 0 < INR (length nodes)) by (apply lt_0_INR; lia).
        apply (Rmult_le_reg_r (INR (length nodes))); [exact Hpos|].
        unfold Rdiv. rewrite Rmult_assoc, Rinv_l by lra. lra. }
      lra. }
    rewrite Hperm in Hmain. exact Hmain.
Qed.


Lemma bounding_box_correct (m : Node) (ms : list Node) :
  is_bounding_box (m :: ms) (bounding_box m ms).
Proof.
  unfold is_bounding_box, bounding_box; simpl.
  split; [|repeat split].
  - intros n [<-|Hin].
    + repeat split;
        first [apply py_min_le_acc | apply py_max_ge_acc].
    + repeat split.
      * apply py_min_le. now apply in_map.
      * apply py_max_ge.
        now apply (in_map (fun k => node_x k + node_width k)).
      * apply py_min_le. now apply in_map.
      * apply py_max_ge.
        now apply (in_map (fun k => node_y k + node_height k)).
  - destruct (py_min_in (map node_x ms) (node_x m)) as [H|H].
    + exists m. split; [now left|now rewrite H].
    + apply in_map_iff in H. destruct H as [n [Hn Hin]].
      exists n. split; [now right|exact Hn].
  - destruct (py_max_in (map (fun k => node_x k + node_width k) ms)
                (node_x m + node_width m)) as [H|H].
    + exists m. split; [now left|now rewrite H].
    + apply in_map_iff in H. destruct H as [n [Hn Hin]].
      exists n. split; [now right|exact Hn].
  - destruct (py_min_in (map node_y ms) (node_y m)) as [H|H].
    + exists m. split; [now left|now rewrite H].
    + apply in_map_iff in H. destruct H as [n [Hn Hin]].
      exists n. split; [now right|exact Hn].
  - destruct (py_max_in (map (fun k => node_y k + node_height k) ms)
                (node_y m + node_height m)) as [H|H].
    + exists m. split; [now left|now rewrite H].
    + apply in_map_iff in H. destruct H as [n [Hn Hin]].
      exists n. split; [now right|exact Hn].
Qed.

(** The extent is always computed from the filtered nodes. *)
Lemma compute_extent_main nodes :
  nodes <> [] ->
  exists m ms, filter_main_nodes nodes = m :: ms /\
               compute_extent nodes = extent_of_box (bounding_box m ms).
Proof.
  intros Hne. pose proof (filter_main_nodes_nonempty nodes Hne) as Hmain.
  destruct nodes as [|n ns]; [congruence|].
  unfold compute_extent.
  destruct (filter_main_nodes (n :: ns)) as [|m ms]; [congruence|].
  now exists m, ms.
Qed.

(** An outlier is cut: of four nodes centred on the origin and one centred
    100 to the right, the centroid is (20, 0), the distances are 20 (four
    times) and 80, their mean is 32 and their standard deviation 24, so
    the threshold is 68 and the far node is dropped. *)
Lemma cluster5_centroid : spec_centroid cluster5 = (20, 0).
Proof.
  unfold spec_centroid, cluster5, near, far, sum, node_center_x, node_center_y.
  cbn [map fold_left length node_x node_y node_width node_height].
  replace (INR 5) with 5 by (simpl; lra).
  f_equal; lra.
Qed.

Lemma cluster5_distance_near name :
  spec_distance cluster5 (near name) = 20.
Proof.
  unfold spec_distance. rewrite cluster5_centroid.
  unfold distance_from, near, node_center_x, node_center_y.
  cbn [fst snd node_x node_y node_width node_height].
  replace ((-50 + 100 / 2 - 20) ^ 2 + (-25 + 50 / 2 - 0) ^ 2)
    with (20 * 20) by lra.
  apply sqrt_square. lra.
Qed.

Lemma cluster5_distance_far : spec_distance cluster5 far = 80.
Proof.
  unfold spec_distance. rewrite cluster5_centroid.
  unfold distance_from, far, node_center_x, node_center_y.
  cbn [fst snd node_x node_y node_width node_height].
  replace ((50 + 100 / 2 - 20) ^ 2 + (-25 + 50 / 2 - 0) ^ 2)
    with (80 * 80) by lra.
  apply sqrt_square. lra.
Qed.

Lemma cluster5_distances :
  map (spec_distance cluster5) cluster5 = [20; 20; 80; 20; 20].
Proof.
  unfold cluster5 at 2. cbn [map].
  now rewrite !cluster5_distance_near, cluster5_distance_far.
Qed.

Lemma cluster5_mean : spec_mean cluster5 = 32.
Proof.
  unfold spec_mean. rewrite cluster5_distances.
  unfold sum. cbn [fold_left cluster5 length].
  replace (INR 5) with 5 by (simpl; lra). lra.
Qed.

Lemma cluster5_stddev : spec_stddev cluster5 = 24.
Proof.
  unfold spec_stddev.
  rewrite <- (map_map (spec_distance cluster5)
                (fun r => (r - spec_mean cluster5) ^ 2)).
  rewrite cluster5_distances, cluster5_mean.
  unfold sum. cbn [map fold_left cluster5 length].
  replace (INR 5) with 5 by (simpl; lra).
  replace ((0 + (20 - 32) ^ 2 + (20 - 32) ^ 2 + (80 - 32) ^ 2
            + (20 - 32) ^ 2 + (20 - 32) ^ 2) / 5)
    with (24 * 24) by lra.
  apply sqrt_square. lra.
Qed.

Lemma cluster5_main :
  filter (spec_is_main cluster5) cluster5
  = [ near "n1"; near "n2"; near "n3"; near "n4" ].
Proof.
  assert (Hnear : forall name, spec_is_main cluster5 (near name) = true).
  { intros name. unfold spec_is_main, spec_threshold, Rleb.
    rewrite cluster5_distance_near, cluster5_mean, cluster5_stddev.
    destruct (Rle_dec _ _); [reflexivity|lra]. }
  assert (Hfar : spec_is_main cluster5 far = false).
  { unfold spec_is_main, spec_threshold, Rleb.
    rewrite cluster5_distance_far, cluster5_mean, cluster5_stddev.
    destruct (Rle_dec _ _); [lra|reflexivity]. }
  unfold cluster5 at 2. cbn [filter]. now rewrite !Hnear, Hfar.
Qed.

Lemma cluster5_outlier_cut :
  Permutation (filter_main_nodes cluster5)
              [ near "n1"; near "n2"; near "n3"; near "n4" ].
Proof.
  rewrite <- cluster5_main. apply filter_main_nodes_perm. simpl. lia.
Qed.



(** C8.  A list of at most two nodes is returned unchanged. *)
Theorem filter_main_nodes_identity (nodes : list Node) :
  (length nodes <= 2)%nat -> filter_main_nodes nodes = nodes.
Proof. apply filter_main_nodes_small. Qed.

Lemma filter_main_nodes_identity_pair :
  filter_main_nodes (firstn 2 row3) = firstn 2 row3.
Proof.
  apply (filter_main_nodes_identity (firstn 2 row3)). simpl. lia.
Defined.



(** C6.  Without nodes the canvas is 2000 x 1500 with zero offsets.
    Otherwise the extent is taken from the bounding box of the filtered
    nodes: 200 units are added on every side and 100 more on top, width and
    height are raised to at least 2000 and 1500, and the offsets are
    [-minX + 200] and [-minY + 200 + 100]. *)
Theorem compute_extent_spec (nodes : list Node) :
  compute_extent [] = mkExtent 2000 1500 0 0 /\
  (nodes <> [] ->
   exists b, is_bounding_box (filter_main_nodes nodes) b /\
     canvas_width (compute_extent nodes)
       = Rmax (max_x b - min_x b + 2 * 200) 2000 /\
     canvas_height (compute_extent nodes)
       = Rmax (max_y b - min_y b + 2 * 200 + 100) 1500 /\
     offset_x (compute_extent nodes) = - min_x b + 200 /\
     offset_y (compute_extent nodes) = - min_y b + 200 + 100).
Proof.
  split; [reflexivity|]. intros Hne.
  destruct (compute_extent_main nodes Hne) as [m [ms [Hmain Hext]]].
  exists (bounding_box m ms). rewrite Hmain, Hext.
  split; [apply bounding_box_correct|].
  unfold extent_of_box, margin, title_margin, min_canvas_width,
    min_canvas_height; simpl.
  repeat split; f_equal; lra.
Qed.

Lemma compute_extent_spec_row3 :
  exists b, is_bounding_box (filter_main_nodes row3) b /\
     canvas_width (compute_extent row3)
       = Rmax (max_x b - min_x b + 2 * 200) 2000 /\
     canvas_height (compute_extent row3)
       = Rmax (max_y b - min_y b + 2 * 200 + 100) 1500 /\
     offset_x (compute_extent row3) = - min_x b + 200 /\
     offset_y (compute_extent row3) = - min_y b + 200 + 100.
Proof.
  apply (proj2 (compute_extent_spec row3)). discriminate.
Defined.

(** *** Further properties of the layout engine *)

Lemma filter_sorted {A} (R : A -> A -> Prop) (f : A -> bool) (l : list A) :
  StronglySorted R l -> StronglySorted R (filter f l).
Proof.
  induction 1 as [|a l Hs IH Hall]; simpl; [constructor|].
  destruct (f a); [|exact IH].
  constructor; [exact IH|].
  apply Forall_forall. intros b Hb. apply filter_In in Hb.
  rewrite Forall_forall in Hall. now apply Hall.
Qed.

Lemma map_snd_sorted (g : Node -> R) (l : list (R * Node)) :
  Forall (fun d => fst d = g (snd d)) l ->
  StronglySorted (fun a b => fst a <= fst b) l ->
  StronglySorted (fun a b => g a <= g b) (map snd l).
Proof.
  intros Hkey Hs. induction Hs as [|d l Hs IH Hall]; simpl; [constructor|].
  inversion Hkey as [|? ? Hd Hl]; subst.
  constructor; [now apply IH|].
  apply Forall_forall. intros n Hn. apply in_map_iff in Hn.
  destruct Hn as [e [<- He]].
  rewrite Forall_forall in Hall, Hl.
  rewrite <- Hd, <- (Hl e He). now apply Hall.
Qed.

(** X1.  With more than two nodes the kept nodes come out in ascending
    order of their distance from the centroid. *)
Theorem filter_main_nodes_sorted (nodes : list Node) :
  (2 < length nodes)%nat ->
  StronglySorted
    (fun a b => spec_distance nodes a <= spec_distance nodes b)
    (filter_main_nodes nodes).
Proof.
  intros Hlen. rewrite filter_main_nodes_unfold by exact Hlen.
  apply map_snd_sorted.
  - apply Forall_forall. intros d Hd. apply filter_In in Hd.
    destruct Hd as [Hd _].
    apply (Permutation_in _ (sort_by_key_perm _)) in Hd.
    apply in_map_iff in Hd. destruct Hd as [n [<- _]]. reflexivity.
  - apply filter_sorted, sort_by_key_sorted.
Qed.

Lemma filter_main_nodes_sorted_row3 :
  StronglySorted
    (fun a b => spec_distance row3 a <= spec_distance row3 b)
    (filter_main_nodes row3).
Proof.
  apply (filter_main_nodes_sorted row3). simpl. lia.
Defined.







(** *** Moving the whole board *)

Lemma sum_map_shift {A} (f : A -> R) (d : R) (l : list A) :
  sum (map (fun a => f a + d) l) = sum (map f l) + INR (length l) * d.
Proof.
  induction l as [|a l IH].
  - unfold sum. simpl. lra.
  - cbn [map]. rewrite !sum_cons, IH.
    change (length (a :: l)) with (S (length l)). rewrite S_INR. lra.
Qed.

Lemma mean_shift {A} (f : A -> R) (d : R) (l : list A) :
  l <> [] ->
  sum (map (fun a => f a + d) l) / INR (length l)
  = sum (map f l) / INR (length l) + d.
Proof.
  intros Hne. rewrite sum_map_shift.
  assert (0 < INR (length l)).
  { apply lt_0_INR. destruct l; [congruence|simpl; lia]. }
  field. lra.
Qed.

Lemma distance_from_translate cx cy dx dy n :
  distance_from (cx + dx) (cy + dy) (translate dx dy n)
  = distance_from cx cy n.
Proof.
  unfold distance_from, translate, node_center_x, node_center_y.
  cbn [node_x node_y node_width node_height]. f_equal. lra.
Qed.

Lemma insert_by_key_on_node t d l :
  insert_by_key (on_node t d) (map (on_node t) l)
  = map (on_node t) (insert_by_key d l).
Proof.
  induction l as [|e l IH]; [reflexivity|].
  cbn [map insert_by_key]. cbn [on_node fst].
  destruct (Rleb (fst d) (fst e)); [reflexivity|].
  cbn [map]. now rewrite <- IH.
Qed.

Lemma sort_by_key_on_node t l :
  sort_by_key (map (on_node t) l) = map (on_node t) (sort_by_key l).
Proof.
  induction l as [|d l IH]; [reflexivity|].
  cbn [map sort_by_key]. now rewrite IH, insert_by_key_on_node.
Qed.

Lemma filter_on_node t (p : R -> bool) l :
  filter (fun d => p (fst d)) (map (on_node t) l)
  = map (on_node t) (filter (fun d => p (fst d)) l).
Proof.
  induction l as [|d l IH]; [reflexivity|].
  cbn [map filter on_node fst]. destruct (p (fst d)); cbn [map]; now rewrite IH.
Qed.

Lemma filter_main_nodes_translate dx dy nodes :
  filter_main_nodes (map (translate dx dy) nodes)
  = map (translate dx dy) (filter_main_nodes nodes).
Proof.
  unfold filter_main_nodes. rewrite length_map.
  destruct (Nat.leb_spec (length nodes) 1) as [_|Hlen]; [reflexivity|].
  assert (Hne : nodes <> []) by (destruct nodes; [simpl in Hlen; lia|discriminate]).
  rewrite !map_map.
  assert (Hx : map (fun n => node_center_x (translate dx dy n)) nodes
               = map (fun n => node_center_x n + dx) nodes).
  { apply map_ext. intros n. unfold node_center_x, translate.
    cbn [node_x node_width]. lra. }
  assert (Hy : map (fun n => node_center_y (translate dx dy n)) nodes
               = map (fun n => node_center_y n + dy) nodes).
  { apply map_ext. intros n. unfold node_center_y, translate.
    cbn [node_y node_height]. lra. }
  rewrite Hx, Hy, !mean_shift by exact Hne.
  set (cx := sum (map node_center_x nodes) / INR (length nodes)).
  set (cy := sum (map node_center_y nodes) / INR (length nodes)).
  assert (Htag :
    map (fun n => (distance_from (cx + dx) (cy + dy) (translate dx dy n),
                   translate dx dy n)) nodes
    = map (on_node (translate dx dy))
          (map (fun n => (distance_from cx cy n, n)) nodes)).
  { rewrite map_map. apply map_ext. intros n.
    unfold on_node. cbn [fst snd]. now rewrite distance_from_translate. }
  rewrite Htag, sort_by_key_on_node.
  set (D := sort_by_key (map (fun n => (distance_from cx cy n, n)) nodes)).
  rewrite length_map.
  destruct (2 <? length D)%nat; [|reflexivity].
  rewrite !map_map. cbn [on_node fst].
  rewrite (filter_on_node (translate dx dy)
             (fun r => Rleb r
                (sum (map (fun d => fst d) D) / INR (length D)
                 + 1.5 * sqrt (sum (map (fun d =>
                      (fst d - sum (map (fun d0 => fst d0) D) / INR (length D)) ^ 2) D)
                      / INR (length D))))).
  rewrite !map_map. reflexivity.
Qed.

Lemma Rmin_shift a b d : Rmin (a + d) (b + d) = Rmin a b + d.
Proof. unfold Rmin. destruct (Rle_dec _ _), (Rle_dec _ _); lra. Qed.

Lemma Rmax_shift a b d : Rmax (a + d) (b + d) = Rmax a b + d.
Proof. unfold Rmax. destruct (Rle_dec _ _), (Rle_dec _ _); lra. Qed.

Lemma py_min_shift {A} (f g : A -> R) (d : R) (a : R) (l : list A) :
  (forall k, g k = f k + d) ->
  py_min (a + d) (map g l) = py_min a (map f l) + d.
Proof.
  intros Hg. unfold py_min. revert a.
  induction l as [|k l IH]; intros a; [reflexivity|].
  cbn [map fold_left]. rewrite Hg, Rmin_shift. apply IH.
Qed.

Lemma py_max_shift {A} (f g : A -> R) (d : R) (a : R) (l : list A) :
  (forall k, g k = f k + d) ->
  py_max (a + d) (map g l) = py_max a (map f l) + d.
Proof.
  intros Hg. unfold py_max. revert a.
  induction l as [|k l IH]; intros a; [reflexivity|].
  cbn [map fold_left]. rewrite Hg, Rmax_shift. apply IH.
Qed.

Lemma compute_extent_translate (dx dy : R) (nodes : list Node) :
  let e := compute_extent nodes in
  let e' := compute_extent (map (translate dx dy) nodes) in
  filter_main_nodes (map (translate dx dy) nodes)
  = map (translate dx dy) (filter_main_nodes nodes) /\
  canvas_width e' = canvas_width e /\
  canvas_height e' = canvas_height e /\
  forall n, In n nodes ->
    node_x (translate dx dy n) + offset_x e' = node_x n + offset_x e /\
    node_y (translate dx dy n) + offset_y e' = node_y n + offset_y e.
Proof.
  cbv zeta. split; [apply filter_main_nodes_translate|].
  destruct nodes as [|n0 ns].
  - cbn. repeat split; try reflexivity; contradiction.
  - destruct (compute_extent_main (n0 :: ns)) as [m [ms [Hmain Hext]]];
      [discriminate|].
    destruct (compute_extent_main (map (translate dx dy) (n0 :: ns)))
      as [m' [ms' [Hmain' Hext']]]; [discriminate|].
    rewrite filter_main_nodes_translate, Hmain in Hmain'.
    cbn [map] in Hmain'. injection Hmain' as <- <-.
    rewrite Hext, Hext'.
    assert (Hbox :
      min_x (bounding_box (translate dx dy m) (map (translate dx dy) ms))
        = min_x (bounding_box m ms) + dx /\
      max_x (bounding_box (translate dx dy m) (map (translate dx dy) ms))
        = max_x (bounding_box m ms) + dx /\
      min_y (bounding_box (translate dx dy m) (map (translate dx dy) ms))
        = min_y (bounding_box m ms) + dy /\
      max_y (bounding_box (translate dx dy m) (map (translate dx dy) ms))
        = max_y (bounding_box m ms) + dy).
    { unfold bounding_box. cbn [min_x max_x min_y max_y].
      rewrite !map_map.
      cbn [translate node_x node_y node_width node_height].
      repeat split.
      - apply (py_min_shift node_x). reflexivity.
      - replace (node_x m + dx + node_width m)
          with (node_x m + node_width m + dx) by lra.
        apply (py_max_shift (fun k => node_x k + node_width k)).
        intros k. lra.
      - apply (py_min_shift node_y). reflexivity.
      - replace (node_y m + dy + node_height m)
          with (node_y m + node_height m + dy) by lra.
        apply (py_max_shift (fun k => node_y k + node_height k)).
        intros k. lra. }
    destruct Hbox as (H1 & H2 & H3 & H4).
    unfold extent_of_box.
    cbn [canvas_width canvas_height offset_x offset_y].
    rewrite H1, H2, H3, H4.
    split; [f_equal; lra|]. split; [f_equal; lra|].
    intros n _. unfold translate. cbn [node_x node_y]. split; lra.
Qed.

(** X4.  Moving the whole board by [(dx, dy)] changes neither the canvas
    size nor where a node ends up on the canvas; the same nodes are kept
    by the filter. *)
Theorem layout_translation_invariant (dx dy : R) (nodes : list Node) :
  let e := compute_extent nodes in
  let e' := compute_extent (map (translate dx dy) nodes) in
  filter_main_nodes (map (translate dx dy) nodes)
  = map (translate dx dy) (filter_main_nodes nodes) /\
  canvas_width e' = canvas_width e /\
  canvas_height e' = canvas_height e /\
  forall n, In n nodes ->
    node_x (translate dx dy n) + offset_x e' = node_x n + offset_x e /\
    node_y (translate dx dy n) + offset_y e' = node_y n + offset_y e.
Proof. apply compute_extent_translate. Qed.

End LayoutFacts.

(** ** Edge router *)

Module RouterFacts.
Import Router.
Open Scope R_scope.

Lemma Rltb_true a b : Rltb a b = true <-> a < b.
Proof. unfold Rltb. destruct (Rlt_dec a b); split; intros; try discriminate; tauto. Qed.

Lemma Rltb_false a b : Rltb a b = false <-> b <= a.
Proof.
  unfold Rltb. destruct (Rlt_dec a b); split; intros; try discriminate;
    try reflexivity; lra.
Qed.

Lemma point_eq a b c d : a = c -> b = d -> mkPoint a b = mkPoint c d.
Proof. now intros -> ->. Qed.

(** The drawing of an edge does not depend on the random draws. *)
Lemma drawEdge_between_drawing fromN toN edge rnd i rnd' i' :
  fst (fst (drawEdge_between fromN toN edge rnd i))
  = fst (fst (drawEdge_between fromN toN edge rnd' i')).
Proof.
  unfold drawEdge_between, bind, random, ret.
  destruct (_ && _ && negb _); [reflexivity|].
  destruct (_ && _ && negb _); [reflexivity|].
  destruct (side_eqb _ _).
  - unfold same_side_direction, random_direction, bind, random, ret.
    destruct (or_default (fromSide edge) Right), (or_default (toSide edge) Left);
      reflexivity.
  - reflexivity.
Qed.

Lemma drawEdge_drawing nodes edge rnd i rnd' i' :
  option_map fst (fst (drawEdge nodes edge rnd i))
  = option_map fst (fst (drawEdge nodes edge rnd' i')).
Proof.
  unfold drawEdge.
  destruct (find_node nodes (fromNode edge)) as [fromN|]; [|reflexivity].
  destruct (find_node nodes (toNode edge)) as [toN|]; [|reflexivity].
  unfold bind, ret.
  pose proof (drawEdge_between_drawing fromN toN edge rnd i rnd' i') as H.
  destruct (drawEdge_between fromN toN edge rnd i) as [[d lg] j].
  destruct (drawEdge_between fromN toN edge rnd' i') as [[d' lg'] j'].
  simpl in *. now rewrite H.
Qed.

Lemma drawEdges_drawing nodes edges rnd i rnd' i' :
  map (option_map fst) (fst (drawEdges nodes edges rnd i))
  = map (option_map fst) (fst (drawEdges nodes edges rnd' i')).
Proof.
  unfold drawEdges. revert i i'.
  induction edges as [|e edges IH]; intros i i'; [reflexivity|].
  simpl. unfold bind, ret.
  pose proof (drawEdge_drawing nodes e rnd i rnd' i') as He.
  destruct (drawEdge nodes e rnd i) as [r j].
  destruct (drawEdge nodes e rnd' i') as [r' j'].
  specialize (IH j j').
  destruct (forEach (drawEdge nodes) edges rnd j) as [rs k].
  destruct (forEach (drawEdge nodes) edges rnd' j') as [rs' k'].
  simpl in *. now rewrite He, IH.
Qed.

Lemma same_side_direction_fst fs ts rnd k :
  fst (same_side_direction fs ts rnd k) = direction_rule fs ts (rnd k).
Proof.
  unfold same_side_direction, direction_rule, random_direction, bind, random, ret.
  destruct fs, ts; reflexivity.
Qed.

Lemma direction_rule_opposite fs ts v :
  side_eqb fs ts = false ->
  direction_rule fs ts v = if Rltb 0.5 v then 1 else -1.
Proof.
  unfold direction_rule. destruct fs, ts; simpl; intros H;
    try discriminate H; reflexivity.
Qed.

Lemma half_bernstein (a b c e : R) :
  (1 - 0.5) * (1 - 0.5) * (1 - 0.5) * a
  + 3 * ((1 - 0.5) * (1 - 0.5)) * 0.5 * b
  + 3 * (1 - 0.5) * (0.5 * 0.5) * c + 0.5 * 0.5 * 0.5 * e
  = bernstein3 a b c e (1 / 2).
Proof. unfold bernstein3. lra. Qed.

Lemma drawEdge_between_cubic fromN toN edge rnd i d lg j p0 p1 p2 p3 :
  drawEdge_between fromN toN edge rnd i = (d, lg, j) ->
  drawn_path d = Cubic p0 p1 p2 p3 ->
  let fs := or_default (fromSide edge) Right in
  let ts := or_default (toSide edge) Left in
  p0 = calculateAnchorPoint fromN toN fs false /\
  p3 = calculateAnchorPoint toN fromN ts true /\
  p1 = perpendicular_control p0 fs /\
  p2 = perpendicular_control p3 ts /\
  label_point d = bezier_point p0 p1 p2 p3 (1 / 2) /\
  exists L, lg = Some L /\
            computed_displacement fs ts p0 p3 (rnd i) (rnd (S i)) L.
Proof.
  intros Hrun Hpath fs ts.
  unfold drawEdge_between, bind, random, ret in Hrun.
  fold fs ts in Hrun.
  set (fa := calculateAnchorPoint fromN toN fs false) in *.
  set (ta := calculateAnchorPoint toN fromN ts true) in *.
  destruct (_ && _ && negb _) in Hrun.
  { injection Hrun as <- _ _. discriminate Hpath. }
  destruct (_ && _ && negb _) in Hrun.
  { injection Hrun as <- _ _. discriminate Hpath. }
  unfold createPerpendicularControlPoints, adjustArrowEndPoint in Hrun.
  cbn [fst snd] in Hrun.
  destruct (side_eqb fs ts) eqn:Hsame.
  - pose proof (same_side_direction_fst fs ts rnd (S i)) as Hdir.
    destruct (same_side_direction fs ts rnd (S i)) as [dir k].
    cbn [fst snd] in Hrun, Hdir. subst dir.
    injection Hrun as <- <- _. cbn [drawn_path label_point] in *.
    injection Hpath as <- <- <- <-.
    repeat split.
    + unfold bezier_point. now rewrite <- !half_bernstein.
    + eexists. split; [reflexivity|].
      unfold computed_displacement. cbn [log_offset log_direction log_perp
        log_mid_control]. rewrite Hsame.
      repeat split; reflexivity.
  - unfold random_direction, bind, random, ret in Hrun.
    cbn [fst snd] in Hrun.
    injection Hrun as <- <- _. cbn [drawn_path label_point] in *.
    injection Hpath as <- <- <- <-.
    repeat split.
    + unfold bezier_point. now rewrite <- !half_bernstein.
    + eexists. split; [reflexivity|].
      unfold computed_displacement. cbn [log_offset log_direction log_perp
        log_mid_control]. rewrite Hsame.
      rewrite (direction_rule_opposite _ _ _ Hsame).
      repeat split; reflexivity.
Qed.

Ltac solve_Rabs :=
  try unfold Rabs;
  repeat match goal with
  | |- context [Rcase_abs ?r] => destruct (Rcase_abs r)
  end;
  lra.

Ltac decide_Rltb :=
  repeat match goal with
  | |- context [Rltb ?a ?b] =>
      first [ rewrite (proj2 (Rltb_true a b)) by solve_Rabs
            | rewrite (proj2 (Rltb_false a b)) by solve_Rabs ]
  end.

Ltac solve_points :=
  repeat first [ reflexivity | lra | apply point_eq | progress f_equal ].

Lemma sqrt_300_400 : sqrt (300 * 300 + 400 * 400) = 500.
Proof.
  replace (300 * 300 + 400 * 400) with (500 * 500) by lra.
  apply sqrt_square. lra.
Qed.

Lemma drawEdge_AC :
  drawEdge [rectA; rectC] edgeAC half_draws 0%nat
  = (Some (drawingAC, Some loggedAC), 2%nat).
Proof.
  unfold drawEdge, edgeAC, rectA, rectC, find_node. cbn [find id fromNode toNode String.eqb Ascii.eqb Bool.eqb].
  unfold drawEdge_between, bind, random, ret, half_draws, calculateAnchorPoint,
    createPerpendicularControlPoints, perpendicular_control, adjustArrowEndPoint,
    random_direction, bind, random, ret.
  cbn [fromSide toSide or_default side_eqb x y width height px py fst snd negb
       andb label truthy].
  decide_Rltb. cbn [andb negb fst snd px py]. decide_Rltb.
  unfold drawingAC, loggedAC.
  replace (430 - 30 - (0 + 100 + 0)) with 300 by lra.
  replace (400 + 50 / 2 - (0 + 50 / 2)) with 400 by lra.
  rewrite sqrt_300_400.
  replace (Rmin (500 * 0.4) 60) with 60
    by (unfold Rmin; destruct (Rle_dec _ _); lra).
  solve_points.
Qed.

Lemma drawEdge_cubic nodes edge rnd i d lg j p0 p1 p2 p3 :
  drawEdge nodes edge rnd i = (Some (d, lg), j) ->
  drawn_path d = Cubic p0 p1 p2 p3 ->
  let fs := or_default (fromSide edge) Right in
  let ts := or_default (toSide edge) Left in
  p1 = perpendicular_control p0 fs /\
  p2 = perpendicular_control p3 ts /\
  label_point d = bezier_point p0 p1 p2 p3 (1 / 2) /\
  exists L, lg = Some L /\
            computed_displacement fs ts p0 p3 (rnd i) (rnd (S i)) L.
Proof.
  unfold drawEdge. intros Hrun Hpath.
  destruct (find_node nodes (fromNode edge)) as [fromN|];
    [|discriminate Hrun].
  destruct (find_node nodes (toNode edge)) as [toN|];
    [|discriminate Hrun].
  unfold bind, ret in Hrun.
  destruct (drawEdge_between fromN toN edge rnd i) as [[d' lg'] j'] eqn:Hb.
  injection Hrun as -> -> _.
  destruct (drawEdge_between_cubic _ _ _ _ _ _ _ _ _ _ _ _ Hb Hpath)
    as (_ & _ & H1 & H2 & H3 & H4).
  auto.
Qed.

(** For a right-to-right connection drawn as a curve the label sits 60
    units to the right of the middle of the chord. *)
Lemma label_off_chord_right_right nodes edge rnd i d lg j p0 p1 p2 p3 :
  drawEdge nodes edge rnd i = (Some (d, lg), j) ->
  drawn_path d = Cubic p0 p1 p2 p3 ->
  or_default (fromSide edge) Right = Right ->
  or_default (toSide edge) Left = Right ->
  label_point d = mkPoint (px (chord_midpoint p0 p3) + 60)
                          (py (chord_midpoint p0 p3)).
Proof.
  intros Hrun Hpath Hfs Hts.
  destruct (drawEdge_cubic _ _ _ _ _ _ _ _ _ _ _ Hrun Hpath)
    as (H1 & H2 & H3 & _).
  rewrite Hfs in H1. rewrite Hts in H2. rewrite H3, H1, H2.
  unfold bezier_point, bernstein3, chord_midpoint, perpendicular_control.
  cbn [px py]. apply point_eq; lra.
Qed.

(** The logged offset, unlike the drawing, follows the random draw: with
    the draw 0 instead of 1/2 the same edge logs 48 instead of 60. *)
Lemma logged_offset_follows_draw :
  exists L j,
    drawEdge [rectA; rectC] edgeAC (fun _ => 0) 0%nat
    = (Some (drawingAC, Some L), j) /\ log_offset L = 48.
Proof.
  pose proof (drawEdge_drawing [rectA; rectC] edgeAC (fun _ => 0) 0%nat
                half_draws 0%nat) as Hsame.
  rewrite drawEdge_AC in Hsame. cbn [fst option_map] in Hsame.
  destruct (drawEdge [rectA; rectC] edgeAC (fun _ => 0) 0%nat)
    as [[[d lg]|] j] eqn:Hrun;
    cbn [fst option_map] in Hsame; [|discriminate Hsame].
  injection Hsame as ->.
  destruct (drawEdge_cubic _ _ _ _ _ _ _ _ _ _ _ Hrun eq_refl)
    as (_ & _ & _ & L & -> & Hoff & _).
  exists L, j. split; [reflexivity|].
  rewrite Hoff. cbn [edgeAC fromSide toSide or_default side_eqb px py].
  replace (400 - 100) with 300 by lra.
  replace (425 - 25) with 400 by lra.
  rewrite sqrt_300_400.
  replace (Rmin (500 * 0.4) 60) with 60
    by (unfold Rmin; destruct (Rle_dec _ _); lra).
  lra.
Qed.

(** C7.  For the rectangles A (0, 0, 100 x 50) and B (300, 0, 100 x 50)
    joined right to left, the departure anchor is (100, 25) and the arrival
    anchor is (270, 25).  For every rectangle, the departure anchor of a
    declared side is the middle of that side, the arrival anchor is that
    point moved outward by 30, and also for an undeclared side the two are
    exactly 30 apart. *)
Theorem calculateAnchorPoint_stand_off :
  calculateAnchorPoint rectA rectB Right false = mkPoint 100 25 /\
  calculateAnchorPoint rectB rectA Left true = mkPoint 270 25 /\
  (forall node target,
     let cx := x node + width node / 2 in
     let cy := y node + height node / 2 in
     calculateAnchorPoint node target Top false = mkPoint cx (y node) /\
     calculateAnchorPoint node target Top true = mkPoint cx (y node - 30) /\
     calculateAnchorPoint node target Bottom false
       = mkPoint cx (y node + height node) /\
     calculateAnchorPoint node target Bottom true
       = mkPoint cx (y node + height node + 30) /\
     calculateAnchorPoint node target Left false = mkPoint (x node) cy /\
     calculateAnchorPoint node target Left true = mkPoint (x node - 30) cy /\
     calculateAnchorPoint node target Right false
       = mkPoint (x node + width node) cy /\
     calculateAnchorPoint node target Right true
       = mkPoint (x node + width node + 30) cy) /\
  (forall node target side,
     let departure := calculateAnchorPoint node target side false in
     let arrival := calculateAnchorPoint node target side true in
     (px arrival - px departure) ^ 2 + (py arrival - py departure) ^ 2
     = 30 ^ 2).
Proof.
  split; [|split; [|split]].
  - unfold calculateAnchorPoint, rectA. cbn [x y width height].
    apply point_eq; lra.
  - unfold calculateAnchorPoint, rectB. cbn [x y width height].
    apply point_eq; lra.
  - intros node target cx cy. unfold calculateAnchorPoint.
    repeat split; apply point_eq; subst cx cy; lra.
  - intros node target side. unfold calculateAnchorPoint.
    destruct side; cbn [px py]; try lra.
    destruct (Rltb _ _); destruct (Rltb _ _); cbn [px py]; lra.
Qed.

(** C9.  When an edge is drawn as a cubic curve, its label is placed at
    the point of parameter 1/2 of that curve, computed in the Bernstein
    basis from the four points of the drawn path.  That point is the
    middle of the chord moved by 3/8 of the sum of the two control
    offsets, so it is not the middle of the chord unless the offsets
    cancel. *)
Theorem label_at_half nodes edge rnd i d lg j p0 p1 p2 p3 :
  drawEdge nodes edge rnd i = (Some (d, lg), j) ->
  drawn_path d = Cubic p0 p1 p2 p3 ->
  label_point d = bezier_point p0 p1 p2 p3 (1 / 2) /\
  path_point (drawn_path d) (1 / 2) = Some (label_point d) /\
  label_point d
  = mkPoint (px (chord_midpoint p0 p3)
             + 3 / 8 * ((px p1 - px p0) + (px p2 - px p3)))
            (py (chord_midpoint p0 p3)
             + 3 / 8 * ((py p1 - py p0) + (py p2 - py p3))).
Proof.
  intros Hrun Hpath.
  destruct (drawEdge_cubic _ _ _ _ _ _ _ _ _ _ _ Hrun Hpath)
    as (_ & _ & H3 & _).
  split; [exact H3|]. split.
  - rewrite Hpath, H3. reflexivity.
  - rewrite H3. unfold bezier_point, bernstein3, chord_midpoint.
    cbn [px py]. apply point_eq; lra.
Qed.

Lemma label_at_half_AC :
  label_point drawingAC
  = bezier_point (mkPoint 100 25) (mkPoint 180 25)
                 (mkPoint 320 425) (mkPoint 400 425) (1 / 2) /\
  path_point (drawn_path drawingAC) (1 / 2) = Some (label_point drawingAC) /\
  label_point drawingAC
  = mkPoint (px (chord_midpoint (mkPoint 100 25) (mkPoint 400 425))
             + 3 / 8 * ((180 - 100) + (320 - 400)))
            (py (chord_midpoint (mkPoint 100 25) (mkPoint 400 425))
             + 3 / 8 * ((25 - 25) + (425 - 425))).
Proof.
  apply (label_at_half [rectA; rectC] edgeAC half_draws 0%nat drawingAC
           (Some loggedAC) 2%nat (mkPoint 100 25) (mkPoint 180 25)
           (mkPoint 320 425) (mkPoint 400 425) drawEdge_AC).
  reflexivity.
Defined.




(** *** Further properties of the edge router *)

Lemma find_node_none nodes key :
  find_node nodes key = None <-> (forall n, In n nodes -> id n <> key).
Proof.
  unfold find_node. induction nodes as [|m nodes IH]; cbn [find].
  - split; [intros _ n []|reflexivity].
  - destruct (String.eqb_spec (id m) key) as [Heq|Hne].
    + split; [discriminate|]. intros H. exfalso. apply (H m); [now left|exact Heq].
    + rewrite IH. split.
      * intros H n [<-|Hn]; [exact Hne|now apply H].
      * intros H n Hn. apply H. now right.
Qed.

Lemma drawEdge_none nodes edge rnd i :
  fst (drawEdge nodes edge rnd i) = None <-> missing_endpoint nodes edge.
Proof.
  unfold drawEdge, missing_endpoint.
  rewrite <- !find_node_none.
  destruct (find_node nodes (fromNode edge)) as [fromN|];
    [|split; [now left|reflexivity]].
  destruct (find_node nodes (toNode edge)) as [toN|];
    [|split; [now right|reflexivity]].
  unfold bind, ret.
  destruct (drawEdge_between fromN toN edge rnd i) as [r j]. cbn [fst].
  split; [discriminate|]. intros [H|H]; discriminate H.
Qed.

(** X5.  An edge is skipped exactly when one of its endpoints is not among
    the nodes, and a skipped edge takes no random number. *)
Theorem drawEdge_skips_missing nodes edge rnd i :
  (fst (drawEdge nodes edge rnd i) = None <-> missing_endpoint nodes edge) /\
  (fst (drawEdge nodes edge rnd i) = None ->
   snd (drawEdge nodes edge rnd i) = i).
Proof.
  split; [apply drawEdge_none|].
  unfold drawEdge.
  destruct (find_node nodes (fromNode edge)) as [fromN|]; [|reflexivity].
  destruct (find_node nodes (toNode edge)) as [toN|]; [|reflexivity].
  unfold bind, ret.
  destruct (drawEdge_between fromN toN edge rnd i) as [r j]. discriminate.
Qed.

Lemma drawEdges_slots nodes edges rnd i :
  Forall2 (fun e d => d = None <-> missing_endpoint nodes e)
          edges (map (option_map fst) (fst (drawEdges nodes edges rnd i))).
Proof.
  unfold drawEdges. revert i.
  induction edges as [|e edges IH]; intros i; [constructor|].
  cbn [forEach]. unfold bind at 1.
  pose proof (drawEdge_none nodes e rnd i) as He.
  destruct (drawEdge nodes e rnd i) as [r j]. cbn [fst] in He.
  unfold bind at 1. specialize (IH j).
  destruct (forEach (drawEdge nodes) edges rnd j) as [rs k].
  cbn [ret fst map] in *. constructor; [|exact IH].
  rewrite <- He. destruct r; cbn; split; congruence.
Qed.

(** X6.  The edges layer has one slot per edge, in the order of the
    edges, and the empty slots are exactly those of the edges with a
    missing endpoint. *)
Theorem edges_layer_slots nodes edges rnd :
  length (edges_layer nodes edges rnd) = length edges /\
  Forall2 (fun e d => d = None <-> missing_endpoint nodes e)
          edges (edges_layer nodes edges rnd).
Proof.
  pose proof (drawEdges_slots nodes edges rnd 0%nat) as H.
  split; [|exact H]. symmetry. eapply Forall2_length. exact H.
Qed.

(** X7.  The departure anchor of a rectangle with a non-negative size lies
    on its border, whichever side is declared or inferred. *)
Theorem departure_anchor_on_border node target side :
  0 <= width node -> 0 <= height node ->
  on_border node (calculateAnchorPoint node target side false).
Proof.
  intros Hw Hh. unfold on_border, calculateAnchorPoint.
  cbv beta iota zeta.
  assert (Hcase : forall p : Point,
    x node <= px p <= x node + width node ->
    y node <= py p <= y node + height node ->
    (px p = x node \/ px p = x node + width node \/
     py p = y node \/ py p = y node + height node) ->
    x node <= px p <= x node + width node /\
    y node <= py p <= y node + height node /\
    (px p = x node \/ px p = x node + width node \/
     py p = y node \/ py p = y node + height node)) by auto.
  destruct side as [| | | |name].
  - apply Hcase; cbn [px py]; [lra|lra|]. right. right. left. lra.
  - apply Hcase; cbn [px py]; [lra|lra|]. right. right. right. lra.
  - apply Hcase; cbn [px py]; [lra|lra|]. left. lra.
  - apply Hcase; cbn [px py]; [lra|lra|]. right. left. lra.
  - destruct (Rltb _ _); destruct (Rltb _ _);
      apply Hcase; cbn [px py]; lra.
Qed.

Lemma departure_anchor_on_border_A :
  on_border rectA (calculateAnchorPoint rectA rectB Right false).
Proof.
  apply (departure_anchor_on_border rectA rectB Right);
    unfold rectA; cbn [width height]; lra.
Defined.



(** X22.  Two nodes whose centres are at the same height, joined right to
    left (the default sides), are connected by a polyline on one
    horizontal line: from the right side of the source, 80 further right,
    110 left of the target, 30 left of the target; the label sits in the
    middle, and a single random number is taken. *)
Theorem aligned_nodes_straight_line fromN toN edge rnd i :
  or_default (fromSide edge) Right = Right ->
  or_default (toSide edge) Left = Left ->
  y fromN + height fromN / 2 = y toN + height toN / 2 ->
  x toN - 30 <> x fromN + width fromN ->
  let cy := y fromN + height fromN / 2 in
  let a := x fromN + width fromN in
  let b := x toN - 30 in
  drawEdge_between fromN toN edge rnd i
  = (mkDrawing
       (Polyline (mkPoint a cy) (mkPoint (a + 80) cy)
                 (mkPoint (b - 80) cy) (mkPoint b cy))
       (mkPoint ((a + b) / 2) cy) (truthy (label edge)),
     None, S i).
Proof.
  intros Hfs Hts Hy Hx. cbv zeta.
  unfold drawEdge_between, bind, random, ret.
  rewrite Hfs, Hts.
  unfold calculateAnchorPoint, createPerpendicularControlPoints,
    perpendicular_control.
  cbn [px py fst snd side_eqb negb].
  replace (Rltb (Rabs (y fromN + height fromN / 2
                       - (y toN + height toN / 2))) 1) with true.
  2:{ symmetry. apply Rltb_true. rewrite Hy, Rminus_diag, Rabs_R0. lra. }
  replace (Rltb (Rabs (y toN + height toN / 2
                       - (y fromN + height fromN / 2)) * 3)
                (Rabs (x toN - 30 - (x fromN + width fromN + 0)))) with true.
  2:{ symmetry. apply Rltb_true. rewrite Hy, Rminus_diag, Rabs_R0.
      assert (0 < Rabs (x toN - 30 - (x fromN + width fromN + 0)))
        by (apply Rabs_pos_lt; lra).
      lra. }
  cbn [andb]. rewrite <- Hy, !Rplus_0_r. reflexivity.
Qed.

Lemma aligned_nodes_straight_line_AB :
  let cy := y rectA + height rectA / 2 in
  let a := x rectA + width rectA in
  let b := x rectB - 30 in
  drawEdge_between rectA rectB edgeAB half_draws 0%nat
  = (mkDrawing
       (Polyline (mkPoint a cy) (mkPoint (a + 80) cy)
                 (mkPoint (b - 80) cy) (mkPoint b cy))
       (mkPoint ((a + b) / 2) cy) (truthy (label edgeAB)),
     None, 1%nat).
Proof.
  apply (aligned_nodes_straight_line rectA rectB edgeAB half_draws 0%nat);
    unfold rectA, rectB; cbn [x y width height]; try reflexivity; lra.
Defined.

End RouterFacts.



(** ** Markup renderer *)

Module MarkupFacts.
Import Markup.
Open Scope string_scope.

(** The first loop leaves the lines of a code block as they are: a
    heading marker inside a fence stays text. *)
Lemma headings_kept_out_of_code :
  mark_headings false ["# T"; fence; "# not a heading"; fence; "## U"]
  = ["<h1>T</h1>"; fence; "# not a heading"; fence; "<h2>U</h2>"].
Proof. vm_compute. reflexivity. Qed.

(** Splitting on newlines and joining again gives the text back. *)
Lemma join_cons_piece c piece pieces :
  join nl (String c piece :: pieces) = String c (join nl (piece :: pieces)).
Proof. destruct pieces; reflexivity. Qed.

Lemma split_char_nonempty c s : split_char c s <> [].
Proof.
  destruct s as [|a s]; simpl; [discriminate|].
  destruct (Ascii.eqb a c); [discriminate|].
  destruct (split_char c s); discriminate.
Qed.

Lemma join_split_char s : join nl (split_char newline s) = s.
Proof.
  induction s as [|a s IH]; [reflexivity|].
  cbn [split_char].
  destruct (Ascii.eqb_spec a newline) as [->|Hne].
  - pose proof (split_char_nonempty newline s) as Hs.
    destruct (split_char newline s) as [|piece pieces]; [congruence|].
    change (join nl (EmptyString :: piece :: pieces))
      with (String newline (join nl (piece :: pieces))).
    now rewrite IH.
  - pose proof (split_char_nonempty newline s) as Hs.
    destruct (split_char newline s) as [|piece pieces]; [congruence|].
    rewrite join_cons_piece. now rewrite IH.
Qed.

(** The language tag is what precedes the first newline of the block. *)
Lemma split_char_tag tag rest :
  contains tag nl = false ->
  split_char newline (tag ++ nl ++ rest) = tag :: split_char newline rest.
Proof.
  induction tag as [|a tag IH]; intros Htag.
  - cbn. reflexivity.
  - unfold contains in Htag. cbn [find_sub] in Htag.
    unfold startswith, nl in Htag. cbn [strip_prefix] in Htag.
    rewrite Ascii.eqb_sym in Htag.
    destruct (Ascii.eqb a newline) eqn:Ha; [discriminate Htag|].
    cbn [append split_char]. rewrite Ha. rewrite IH; [reflexivity|].
    unfold contains.
    fold nl in Htag.
    destruct (find_sub nl tag); [discriminate Htag|reflexivity].
Qed.

(** X9.  [replace_code_block] drops the language line and keeps the other
    lines of the block as they are. *)
Lemma replace_code_block_drops_tag tag rest :
  contains tag nl = false ->
  replace_code_block (tag ++ nl ++ rest) = fence ++ nl ++ rest ++ nl ++ fence.
Proof.
  intros Htag. unfold replace_code_block.
  rewrite (split_char_tag _ _ Htag).
  pose proof (split_char_nonempty newline rest) as Hs.
  destruct (split_char newline rest) as [|piece pieces] eqn:Hrest;
    [congruence|].
  cbn [List.length tl Nat.ltb Nat.leb].
  rewrite <- Hrest, join_split_char. reflexivity.
Qed.

(** The language line of a code block is dropped. *)
Lemma clean_content_after_code_example :
  clean_content_after_code code_example
  = fence ++ nl ++ code_line ++ nl ++ nl ++ fence.
Proof. vm_compute. reflexivity. Qed.

(** C1 fails on the code block of the specification's example: the
    rendered body of the block is [print("<strong>not bold</strong>")]
    followed by a paragraph break, not the original line. *)
Theorem code_block_is_rewritten :
  generate_html_content code_example
  = "<p>" ++ pre_open ++ "print(" ++ dq ++ "<strong>not bold</strong>" ++ dq
      ++ ")</p><p>" ++ pre_close ++ "</p>" /\
  code_body (generate_html_content code_example)
  = Some ("print(" ++ dq ++ "<strong>not bold</strong>" ++ dq ++ ")</p><p>") /\
  code_body (generate_html_content code_example) <> Some code_line.
Proof.
  split; [vm_compute; reflexivity|].
  split; [vm_compute; reflexivity|].
  vm_compute. discriminate.
Qed.

(** Bullets separated by blank lines do end up in one list of three
    items. *)
Lemma spaced_bullets_grouped :
  generate_html_content
    ("- a" ++ nl ++ nl ++ "- b" ++ nl ++ nl ++ "- c")
  = "<ul><br><li>a</li><li>b</li><li>c</li><br></ul>".
Proof. vm_compute. reflexivity. Qed.

(** C4 fails on three consecutive bullet lines followed by a blank line:
    one list is opened, it holds the single item opened for the first
    line, and the second and third lines are left as text after the list
    is closed. *)
Theorem consecutive_bullets_not_grouped :
  generate_html_content bullets_example
  = "<ul><br><li>a<br></ul><br>- b<br>- c</li>" /\
  count_sub "<ul>" (generate_html_content bullets_example) = 1%nat /\
  count_sub "<li>" (generate_html_content bullets_example) = 1%nat.
Proof. repeat split; vm_compute; reflexivity. Qed.

(** *** Further properties of the markup renderer *)

Lemma drop_nil k : drop k EmptyString = EmptyString.
Proof. destruct k; reflexivity. Qed.

(** A pattern that matches nowhere leaves the text as it is. *)
Lemma re_sub_none (m : Matcher) (s : string) :
  (forall k, m (drop k s) = None) -> re_sub m s = s.
Proof.
  unfold re_sub. induction s as [|c s IH]; intros Hnone; [reflexivity|].
  cbn [sub_from]. rewrite (Hnone 0%nat : m (String c s) = None).
  f_equal. apply IH. intros k. exact (Hnone (S k)).
Qed.

Lemma strip_prefix_head_absent p c t s :
  p = String c t -> all_chars (differs c) s = true ->
  forall k, strip_prefix p (drop k s) = None.
Proof.
  intros -> Hs. induction s as [|a s IH]; intros k.
  - rewrite drop_nil. reflexivity.
  - cbn [all_chars] in Hs. apply andb_prop in Hs. destruct Hs as [Ha Hs].
    destruct k as [|k]; [|exact (IH Hs k)].
    cbn [drop strip_prefix]. unfold differs in Ha.
    rewrite Ascii.eqb_sym. destruct (Ascii.eqb a c); [discriminate Ha|reflexivity].
Qed.

Lemma find_sub_head_absent p c t s :
  p = String c t -> all_chars (differs c) s = true -> find_sub p s = None.
Proof.
  intros Hp Hs. induction s as [|a s IH].
  - subst p. reflexivity.
  - cbn [find_sub]. unfold startswith.
    pose proof (strip_prefix_head_absent p c t _ Hp Hs 0%nat) as H0.
    cbn [drop] in H0. rewrite H0.
    cbn [all_chars] in Hs. apply andb_prop in Hs. destruct Hs as [_ Hs].
    now rewrite (IH Hs).
Qed.

Lemma all_chars_impl (f g : ascii -> bool) s :
  (forall c, f c = true -> g c = true) ->
  all_chars f s = true -> all_chars g s = true.
Proof.
  intros Hfg. induction s as [|c s IH]; [reflexivity|].
  cbn [all_chars]. intros H. apply andb_prop in H. destruct H as [Hc Hs].
  now rewrite (Hfg c Hc), (IH Hs).
Qed.

Lemma all_chars_app f s t :
  all_chars f (s ++ t) = all_chars f s && all_chars f t.
Proof.
  induction s as [|c s IH]; [reflexivity|].
  cbn [append all_chars]. now rewrite IH, andb_assoc.
Qed.

Lemma replace_char_absent a new s :
  all_chars (differs a) s = true -> replace_char a new s = s.
Proof.
  induction s as [|c s IH]; [reflexivity|].
  cbn [all_chars replace_char]. intros H. apply andb_prop in H.
  destruct H as [Hc Hs]. unfold differs in Hc.
  destruct (Ascii.eqb c a); [discriminate Hc|]. now rewrite IH.
Qed.

Lemma split_char_absent a s :
  all_chars (differs a) s = true -> split_char a s = [s].
Proof.
  induction s as [|c s IH]; [reflexivity|].
  cbn [all_chars split_char]. intros H. apply andb_prop in H.
  destruct H as [Hc Hs]. unfold differs in Hc.
  destruct (Ascii.eqb c a); [discriminate Hc|]. now rewrite IH.
Qed.

Lemma split_none sep s :
  (forall k, startswith (drop k s) sep = false) -> split sep s = [s].
Proof.
  unfold split. induction s as [|c s IH]; intros Hnone; [reflexivity|].
  cbn [split_from]. rewrite (Hnone 0%nat : startswith (String c s) sep = false).
  rewrite IH; [reflexivity|]. intros k. exact (Hnone (S k)).
Qed.

Lemma lstrip_start c t :
  is_space c = false -> lstrip (String c t) = String c t.
Proof.
  intros Hc. unfold lstrip. cbn [take_while]. rewrite Hc. reflexivity.
Qed.

Lemma rstrip_start c t :
  is_space c = false -> exists t', rstrip (String c t) = String c t'.
Proof.
  intros Hc. cbn [rstrip]. destruct (rstrip t) as [|d r].
  - rewrite Hc. now exists EmptyString.
  - now exists (String d r).
Qed.

Lemma rstrip_app a b :
  rstrip b <> EmptyString -> rstrip (a ++ b) = a ++ rstrip b.
Proof.
  intros Hb. induction a as [|c a IH]; [reflexivity|].
  cbn [append rstrip]. rewrite IH.
  destruct (a ++ rstrip b) as [|d r] eqn:Hab; [|reflexivity].
  destruct a; [|discriminate Hab]. cbn in Hab. congruence.
Qed.

Lemma strip_start c t :
  is_space c = false -> exists t', strip (String c t) = String c t'.
Proof.
  intros Hc. unfold strip. rewrite lstrip_start by exact Hc.
  now apply rstrip_start.
Qed.

(** No tag that does not start with [</] begins inside [e ++ "</p>"] when
    [e] has no [<]. *)
Lemma no_tag_in_tail (x : ascii) (q e : string) :
  Ascii.eqb x "/"%char = false ->
  all_chars (differs "<"%char) e = true ->
  forall j, strip_prefix (String "<"%char (String x q)) (drop j (e ++ "</p>"))
            = None.
Proof.
  intros Hx He. induction e as [|a e IH]; intros j.
  - cbn [append].
    destruct j as [|[|[|[|j]]]]; cbn [drop strip_prefix];
      try reflexivity.
    + change (Ascii.eqb "<" "<") with true. cbv iota. now rewrite Hx.
    + rewrite drop_nil. reflexivity.
  - cbn [all_chars] in He. apply andb_prop in He. destruct He as [Ha He].
    destruct j as [|j]; [|exact (IH He j)].
    cbn [append drop strip_prefix]. unfold differs in Ha.
    rewrite Ascii.eqb_sym. destruct (Ascii.eqb a "<"); [discriminate Ha|reflexivity].
Qed.

Lemma no_tag_in_paragraph (x : ascii) (q e : string) :
  Ascii.eqb x "/"%char = false ->
  all_chars (differs "<"%char) e = true ->
  forall k, strip_prefix (String "<"%char (String x q))
              (drop (S k) ("<p>" ++ e ++ "</p>")) = None.
Proof.
  intros Hx He k. destruct k as [|[|j]].
  - reflexivity.
  - reflexivity.
  - cbn [append drop]. now apply no_tag_in_tail.
Qed.

Section PlainText.
Variable c : ascii.
Variable t : string.
Let e := String c t.
Hypothesis Hstart : plain_start e = true.
Hypothesis Hinert : all_chars inert e = true.

Lemma plain_facts :
  is_space c = false /\ is_digit c = false /\
  Ascii.eqb c "-" = false /\ Ascii.eqb c "<" = false /\
  Ascii.eqb c "*" = false /\ Ascii.eqb c "`" = false /\
  Ascii.eqb c "#" = false.
Proof.
  pose proof Hstart as Hs. pose proof Hinert as Hi.
  unfold e in Hs, Hi. cbn [plain_start all_chars] in Hs, Hi.
  apply andb_prop in Hi. destruct Hi as [Hc _].
  unfold inert, differs in Hc. unfold differs in Hs.
  repeat rewrite andb_true_iff in Hc. repeat rewrite negb_true_iff in Hc.
  repeat rewrite andb_true_iff in Hs. repeat rewrite negb_true_iff in Hs.
  destruct Hc as ((((((H1 & H2) & H3) & H4) & H5) & H6) & H7).
  destruct Hs as ((Hs1 & Hs2) & Hs3).
  repeat split; assumption.
Qed.

Lemma plain_lacks (a : ascii) :
  inert a = false -> all_chars (differs a) e = true.
Proof.
  intros Ha. apply (all_chars_impl inert); [|exact Hinert].
  intros b Hb. unfold differs.
  destruct (Ascii.eqb_spec b a) as [->|_]; [congruence|reflexivity].
Qed.

Lemma plain_headings :
  mark_headings false (split_char newline e) = [e].
Proof.
  rewrite split_char_absent by (apply plain_lacks; reflexivity).
  destruct plain_facts as (Hsp & _ & _ & _ & _ & Hbt & Hhash).
  destruct (strip_start c t Hsp) as [t' Hstrip]. fold e in Hstrip.
  cbn [mark_headings]. unfold heading_line. rewrite Hstrip.
  unfold startswith, fence. cbn [strip_prefix].
  rewrite (Ascii.eqb_sym "`" c), Hbt, (Ascii.eqb_sym "#" c), Hhash.
  reflexivity.
Qed.

Lemma plain_code : render_code e = e.
Proof.
  unfold render_code, contains.
  rewrite (find_sub_head_absent fence "`"%char "``" e eq_refl)
    by (apply plain_lacks; reflexivity).
  reflexivity.
Qed.

Lemma plain_inline :
  re_sub match_link (re_sub match_italic (re_sub match_bold e)) = e.
Proof.
  assert (Hstar : forall k, strip_prefix "*" (drop k e) = None).
  { apply (strip_prefix_head_absent _ "*"%char EmptyString); [reflexivity|].
    apply plain_lacks; reflexivity. }
  assert (Hstars : forall k, strip_prefix "**" (drop k e) = None).
  { apply (strip_prefix_head_absent _ "*"%char "*"); [reflexivity|].
    apply plain_lacks; reflexivity. }
  assert (Hbr : forall k, strip_prefix "[" (drop k e) = None).
  { apply (strip_prefix_head_absent _ "["%char EmptyString); [reflexivity|].
    apply plain_lacks; reflexivity. }
  rewrite (re_sub_none match_bold)
    by (intros k; unfold match_bold, match_delimited; now rewrite Hstars).
  rewrite (re_sub_none match_italic)
    by (intros k; unfold match_italic, match_delimited; now rewrite Hstar).
  apply re_sub_none. intros k. unfold match_link. now rewrite Hbr.
Qed.

Lemma plain_blank_line : re_sub match_blank_line e = e.
Proof.
  apply re_sub_none. intros k. unfold match_blank_line.
  rewrite (strip_prefix_head_absent nl newline EmptyString); [reflexivity
    |reflexivity|apply plain_lacks; reflexivity].
Qed.

Let W := "<p>" ++ e ++ "</p>".

Lemma plain_no_angle : all_chars (differs "<"%char) e = true.
Proof. apply plain_lacks; reflexivity. Qed.

Lemma plain_paragraph_kept : re_sub match_empty_paragraph W = W.
Proof.
  destruct plain_facts as (Hsp & _ & _ & Hlt & _).
  apply re_sub_none. intros k. unfold match_empty_paragraph.
  destruct k as [|k].
  - unfold W, e. cbn [drop append strip_prefix Ascii.eqb Bool.eqb take_while].
    rewrite Hsp. cbn [String.length drop]. unfold startswith.
    cbn [strip_prefix]. now rewrite (Ascii.eqb_sym "<" c), Hlt.
  - unfold W.
    now rewrite (no_tag_in_paragraph "p" ">" e eq_refl plain_no_angle k).
Qed.

Lemma plain_newlines : re_sub match_newline W = W.
Proof.
  apply re_sub_none. intros k. unfold match_newline.
  rewrite (strip_prefix_head_absent nl newline EmptyString); [reflexivity
    |reflexivity|].
  unfold W. rewrite !all_chars_app.
  rewrite (plain_lacks newline eq_refl). reflexivity.
Qed.

Lemma plain_not_numbered : re_sub match_numbered_item W = W.
Proof.
  destruct plain_facts as (_ & Hdg & _).
  apply re_sub_none. intros k. unfold match_numbered_item.
  destruct k as [|k].
  - unfold W, e. cbn [drop append strip_prefix Ascii.eqb Bool.eqb take_while].
    now rewrite Hdg.
  - unfold W.
    now rewrite (no_tag_in_paragraph "p" ">" e eq_refl plain_no_angle k).
Qed.

Lemma plain_not_bullet : re_sub match_bullet_item W = W.
Proof.
  destruct plain_facts as (_ & _ & Hdash & _ & Hstar & _).
  apply re_sub_none. intros k. unfold match_bullet_item.
  destruct k as [|k].
  - unfold W, e. cbn [drop append strip_prefix Ascii.eqb Bool.eqb].
    now rewrite Hdash, Hstar.
  - unfold W.
    now rewrite (no_tag_in_paragraph "p" ">" e eq_refl plain_no_angle k).
Qed.

Lemma plain_one_line : split "<br>" W = [W].
Proof.
  apply split_none. intros k. unfold startswith.
  destruct k as [|k].
  - reflexivity.
  - unfold W.
    now rewrite (no_tag_in_paragraph "b" "r>" e eq_refl plain_no_angle k).
Qed.

Lemma plain_no_list : group_lists false "None" [W] = [W].
Proof.
  assert (Hstrip : strip W = W).
  { unfold strip. change W with (String "<" ("p>" ++ e ++ "</p>")).
    rewrite lstrip_start by reflexivity.
    change (String "<" ("p>" ++ e ++ "</p>")) with ("<p>" ++ e ++ "</p>").
    rewrite rstrip_app.
    - rewrite rstrip_app; [reflexivity|discriminate].
    - rewrite rstrip_app; [|discriminate]. unfold e. discriminate. }
  cbn [group_lists]. rewrite Hstrip. reflexivity.
Qed.

Lemma plain_pipeline :
  render_prose (render_code (join nl (mark_headings false (split_char newline e))))
  = "<p>" ++ e ++ "</p>".
Proof.
  rewrite plain_headings. change (join nl [e]) with e.
  rewrite plain_code. unfold render_prose.
  rewrite plain_inline, plain_blank_line. fold W.
  rewrite plain_paragraph_kept, plain_newlines, plain_not_numbered,
    plain_not_bullet, plain_one_line, plain_no_list.
  reflexivity.
Qed.

End PlainText.

Lemma all_chars_replace (f g : ascii -> bool) a new s :
  all_chars f new = true ->
  (forall c, Ascii.eqb c a = false -> g c = true -> f c = true) ->
  all_chars g s = true -> all_chars f (replace_char a new s) = true.
Proof.
  intros Hnew Hfg. induction s as [|c s IH]; [reflexivity|].
  cbn [all_chars replace_char]. intros H. apply andb_prop in H.
  destruct H as [Hc Hs].
  destruct (Ascii.eqb c a) eqn:Hca.
  - rewrite all_chars_app, Hnew. now apply IH.
  - cbn [all_chars]. rewrite (Hfg c Hca Hc). now apply IH.
Qed.

Lemma escape_inert s :
  all_chars plain_char s = true -> all_chars inert (escape s) = true.
Proof.
  intros Hs. unfold escape.
  apply (all_chars_replace inert
           (fun c => plain_char c && differs "<"%char c)); [reflexivity| |].
  - intros c Hc H. unfold inert, plain_char, differs in *.
    rewrite Hc. repeat rewrite andb_true_iff in H.
    destruct H as (((((H1 & H2) & H3) & H4) & H5) & H6).
    now rewrite H1, H2, H3, H4, H5, H6.
  - apply (all_chars_replace _ plain_char); [reflexivity| |exact Hs].
    intros c Hc H. unfold differs. now rewrite H, Hc.
Qed.

Lemma escape_start s :
  plain_start s = true ->
  exists c t, escape s = String c t /\ plain_start (String c t) = true.
Proof.
  destruct s as [|c t]; [discriminate|]. intros Hs. unfold escape.
  cbn [replace_char].
  destruct (Ascii.eqb c "<") eqn:Hlt.
  - eexists _, _. split; reflexivity.
  - cbn [replace_char]. destruct (Ascii.eqb c ">") eqn:Hgt.
    + eexists _, _. split; reflexivity.
    + eexists _, _. split; [reflexivity|exact Hs].
Qed.

(** X11.  A one-line ASCII text made of plain characters (no asterisk,
    opening square bracket, backtick or hash; angle brackets allowed) that
    starts with neither a blank, a digit nor a dash is rendered as exactly
    one paragraph holding the text with its angle brackets escaped. *)
Theorem plain_text_is_one_paragraph (s : string) :
  is_plain_text s = true ->
  generate_html_content s = "<p>" ++ escape s ++ "</p>".
Proof.
  unfold is_plain_text. intros H. apply andb_prop in H.
  destruct H as [Hstart Hchars].
  apply (all_chars_impl _ plain_char) in Hchars;
    [|intros a Ha; apply andb_prop in Ha; tauto].
  destruct (escape_start s Hstart) as (c & t & He & Hst).
  pose proof (escape_inert s Hchars) as Hin.
  change (generate_html_content s)
    with (render_prose (render_code (join nl
            (mark_headings false (split_char newline (escape s)))))).
  rewrite He in *. now apply plain_pipeline.
Qed.

Lemma plain_text_is_one_paragraph_example :
  generate_html_content "if a<b then x>y"
  = "<p>" ++ escape "if a<b then x>y" ++ "</p>".
Proof.
  apply (plain_text_is_one_paragraph "if a<b then x>y"). reflexivity.
Defined.

(** *** Code fences *)

Lemma strip_prefix_drop p t r :
  strip_prefix p t = Some r -> r = drop (String.length p) t.
Proof.
  revert t. induction p as [|a p IH]; intros t H.
  - cbn in H. now injection H as <-.
  - destruct t as [|b t]; [discriminate H|]. cbn [strip_prefix] in H.
    destruct (Ascii.eqb a b); [|discriminate H]. cbn [String.length drop].
    now apply IH.
Qed.

Lemma drop_drop a b s : drop a (drop b s) = drop (b + a) s.
Proof.
  revert s. induction b as [|b IH]; intros s; [reflexivity|].
  destruct s as [|c s]; [now rewrite !drop_nil|]. cbn [drop Nat.add]. apply IH.
Qed.

Lemma find_sub_unfold p s :
  find_sub p s
  = if startswith s p then Some 0%nat
    else match s with
         | String _ s' => option_map S (find_sub p s')
         | EmptyString => None
         end.
Proof. destruct s; reflexivity. Qed.

Lemma find_sub_drop_none p s n :
  find_sub p s = None -> find_sub p (drop n s) = None.
Proof.
  revert s. induction n as [|n IH]; intros s H; [exact H|].
  destruct s as [|c s]; [exact H|]. cbn [drop]. apply IH.
  rewrite find_sub_unfold in H.
  destruct (startswith (String c s) p); [discriminate H|].
  destruct (find_sub p s); [discriminate H|reflexivity].
Qed.

Lemma find_sub_first p s j :
  startswith (drop j s) p = true ->
  exists k, (k <= j)%nat /\ find_sub p s = Some k.
Proof.
  revert s. induction j as [|j IH]; intros s H.
  - exists 0%nat. split; [lia|]. rewrite find_sub_unfold.
    cbn [drop] in H. now rewrite H.
  - rewrite find_sub_unfold. destruct (startswith s p) eqn:Hs.
    + exists 0%nat. split; [lia|reflexivity].
    + destruct s as [|c s].
      * rewrite drop_nil in H. congruence.
      * cbn [drop] in H. destruct (IH s H) as [k [Hk Hf]].
        exists (S k). split; [lia|]. now rewrite Hf.
Qed.

Lemma match_fence_none f s :
  (forall k, find_sub fence s = Some k ->
             find_sub fence (drop (k + 3) s) = None) ->
  forall j, match_fence f (drop j s) = None.
Proof.
  intros Hone j. unfold match_fence.
  destruct (strip_prefix fence (drop j s)) as [rest|] eqn:Hp; [|reflexivity].
  assert (Hstart : startswith (drop j s) fence = true)
    by (unfold startswith; now rewrite Hp).
  destruct (find_sub_first fence s j Hstart) as [k [Hk Hf]].
  apply strip_prefix_drop in Hp. cbn [String.length fence] in Hp.
  rewrite drop_drop in Hp.
  specialize (Hone k Hf).
  apply (find_sub_drop_none _ _ (j - k)) in Hone.
  rewrite drop_drop in Hone.
  replace (k + 3 + (j - k))%nat with (j + 3)%nat in Hone by lia.
  subst rest. now rewrite Hone.
Qed.

(** X10.  A text with no fence, or with a single fence that is never
    closed, goes through the code-block steps unchanged: no language line
    is dropped and no code block is produced. *)
Theorem unclosed_fence_left_as_is (s : string) :
  (forall k, find_sub fence s = Some k ->
             find_sub fence (drop (k + 3) s) = None) ->
  clean_content_after_code s = s /\ render_code s = s.
Proof.
  intros Hone.
  assert (Hclean : clean_content_after_code s = s).
  { unfold clean_content_after_code. destruct s; [reflexivity|].
    apply re_sub_none. now apply match_fence_none. }
  split; [exact Hclean|].
  unfold render_code. destruct (contains s fence); [|reflexivity].
  rewrite Hclean. apply re_sub_none. now apply match_fence_none.
Qed.

Lemma unclosed_fence_left_as_is_example :
  clean_content_after_code ("see " ++ fence ++ "python" ++ nl ++ "x = 1")
  = "see " ++ fence ++ "python" ++ nl ++ "x = 1" /\
  render_code ("see " ++ fence ++ "python" ++ nl ++ "x = 1")
  = "see " ++ fence ++ "python" ++ nl ++ "x = 1".
Proof.
  apply (unclosed_fence_left_as_is
           ("see " ++ fence ++ "python" ++ nl ++ "x = 1")).
  intros k Hk. vm_compute in Hk. injection Hk as <-. reflexivity.
Defined.

Lemma replace_code_block_drops_tag_example :
  replace_code_block ("python" ++ nl ++ code_line ++ nl)
  = fence ++ nl ++ (code_line ++ nl) ++ nl ++ fence.
Proof.
  apply (replace_code_block_drops_tag "python" (code_line ++ nl)).
  reflexivity.
Defined.

(** *** Headings *)

Lemma strip_marked q c t (p := String "#"%char q) :
  is_space c = false ->
  exists t', strip (p ++ String c t) = p ++ String c t'.
Proof.
  intros Hc. unfold strip, p. cbn [append].
  rewrite lstrip_start by reflexivity.
  destruct (rstrip_start c t Hc) as [t' Ht'].
  exists t'.
  change (String "#" (q ++ String c t)) with (String "#" q ++ String c t).
  rewrite rstrip_app; [now rewrite Ht'|]. rewrite Ht'. discriminate.
Qed.

Lemma append_assoc_string (a b c : string) : (a ++ b) ++ c = a ++ b ++ c.
Proof.
  induction a as [|x a IH]; [reflexivity|]. cbn [append]. now rewrite IH.
Qed.

Lemma heading_line_no_hash (line : string) :
  strip_prefix "#" line = None -> heading_line line = line.
Proof.
  intros Hno.
  assert (Hsub : forall q level, sub_heading (String "#" q) level line = line).
  { intros q level. unfold sub_heading. destruct line as [|a l]; [reflexivity|].
    cbn [strip_prefix] in *. destruct (Ascii.eqb "#" a); [discriminate Hno|].
    reflexivity. }
  unfold heading_line.
  repeat match goal with
         | |- context [if ?b then _ else _] => destruct b
         end; try reflexivity; apply Hsub.
Qed.

(** X12.  A line of one to six hash signs, a space and a title that
    starts with a visible ASCII character becomes the heading of that
    level; without hash sign, or with seven or more, the line is left as
    it is. *)
Theorem heading_line_levels (k : nat) (c : ascii) (t : string) :
  is_ascii c && negb (is_space c) = true ->
  all_chars (differs newline) (String c t) = true ->
  heading_line (hashes k ++ " " ++ String c t)
  = if ((1 <=? k) && (k <=? 6))%nat
    then "<h" ++ level_digit k ++ ">" ++ String c t
           ++ "</h" ++ level_digit k ++ ">"
    else hashes k ++ " " ++ String c t.
Proof.
  intros Hc _. apply andb_prop in Hc. destruct Hc as [_ Hc].
  apply negb_true_iff in Hc.
  destruct k as [|k].
  { apply heading_line_no_hash. reflexivity. }
  destruct (strip_marked (hashes k ++ " ") c t Hc) as [t' Ht'].
  change (String "#" (hashes k ++ " ") ++ String c t)
    with (String "#" ((hashes k ++ " ") ++ String c t)) in Ht'.
  change (String "#" (hashes k ++ " ") ++ String c t')
    with (String "#" ((hashes k ++ " ") ++ String c t')) in Ht'.
  rewrite !append_assoc_string in Ht'.
  change (String "#" (hashes k ++ " " ++ String c t))
    with (hashes (S k) ++ " " ++ String c t) in Ht'.
  unfold heading_line. rewrite Ht'.
  do 6 (destruct k as [|k]; [reflexivity|]).
  reflexivity.
Qed.

Lemma heading_line_levels_example :
  heading_line (hashes 6 ++ " " ++ "Z")
  = if ((1 <=? 6) && (6 <=? 6))%nat
    then "<h" ++ level_digit 6 ++ ">" ++ "Z" ++ "</h" ++ level_digit 6 ++ ">"
    else hashes 6 ++ " " ++ "Z".
Proof.
  apply (heading_line_levels 6 "Z"%char EmptyString); reflexivity.
Defined.

(** *** The heading loop and code blocks *)






(** *** Lists *)

Lemma digit_not_space a : is_digit a = true -> is_space a = false.
Proof.
  unfold is_digit, is_space. intros H.
  apply andb_prop in H. destruct H as [H1 H2].
  apply Nat.leb_le in H1. apply Nat.leb_le in H2.
  apply orb_false_iff. split; apply andb_false_iff.
  - right. apply Nat.leb_gt. lia.
  - right. apply Nat.leb_gt. lia.
Qed.

(** A line whose stripped form starts with [<li>] does not start with a
    number, so the test for an ordered list never succeeds. *)
Lemma li_not_numbered line :
  startswith (strip line) "<li>" = true -> starts_numbered line = false.
Proof.
  intros Hli. unfold starts_numbered.
  destruct line as [|a l]; [reflexivity|].
  cbn [take_while]. destruct (is_digit a) eqn:Hd; [|reflexivity].
  exfalso.
  destruct (strip_start a l (digit_not_space a Hd)) as [t' Ht'].
  rewrite Ht' in Hli. unfold startswith in Hli. cbn [strip_prefix] in Hli.
  destruct (Ascii.eqb_spec "<" a) as [<-|_]; [discriminate Hd|discriminate Hli].
Qed.

Lemma group_lists_keeps b lt lines line :
  In line lines -> In line (group_lists b lt lines).
Proof.
  revert b lt. induction lines as [|l lines IH]; intros b lt Hin; [destruct Hin|].
  cbn [group_lists].
  destruct Hin as [->|Hin].
  - destruct (startswith (strip line) "<li>"), b; cbn [In]; auto.
  - destruct (startswith (strip l) "<li>"), b; cbn [In];
      auto using IH.
Qed.

Lemma group_lists_adds b lt lines t :
  (b = true -> lt = "ul") ->
  In t (group_lists b lt lines) ->
  In t lines \/ t = "<ul>" \/ t = "</ul>".
Proof.
  revert b lt. induction lines as [|l lines IH]; intros b lt Hlt Hin.
  - cbn [group_lists] in Hin. destruct b; [|destruct Hin].
    rewrite (Hlt eq_refl) in Hin. destruct Hin as [<-|[]]. auto.
  - cbn [group_lists] in Hin.
    destruct (startswith (strip l) "<li>") eqn:Hli.
    + destruct b.
      * destruct Hin as [<-|Hin]; [left; now left|].
        destruct (IH true lt Hlt Hin) as [H|H]; [left; now right|auto].
      * rewrite (li_not_numbered l Hli) in Hin.
        destruct Hin as [<-|[<-|Hin]]; [auto|left; now left|].
        destruct (IH true "ul" (fun _ => eq_refl) Hin) as [H|H];
          [left; now right|auto].
    + destruct b.
      * rewrite (Hlt eq_refl) in Hin.
        destruct Hin as [<-|[<-|Hin]]; [auto|left; now left|].
        destruct (IH false "ul" (fun H => False_ind _ (Bool.diff_false_true H)) Hin)
          as [H|H]; [left; now right|auto].
      * destruct Hin as [<-|Hin]; [left; now left|].
        destruct (IH false lt (fun H => False_ind _ (Bool.diff_false_true H)) Hin)
          as [H|H]; [left; now right|auto].
Qed.

(** X14.  The list loop drops no line, and the only lines it adds are
    [<ul>] and [</ul>]: numbered items too are put in an unordered list,
    since a line that starts with [<li>] never starts with a number. *)
Theorem group_lists_only_unordered (lines : list string) :
  (forall line, In line lines ->
                In line (group_lists false "None" lines)) /\
  (forall t, In t (group_lists false "None" lines) ->
             In t lines \/ t = "<ul>" \/ t = "</ul>").
Proof.
  split.
  - intros line. apply group_lists_keeps.
  - intros t. apply group_lists_adds. discriminate.
Qed.

End MarkupFacts.





(** ** Viewer *)

Module ViewerFacts.
Import Router Viewer.
Open Scope R_scope.

Ltac split_minmax :=
  unfold Rmax, Rmin; repeat destruct (Rle_dec _ _); try lra.

Lemma fitZoom_bounds vp n ns : 0.1 <= fitZoom vp n ns <= 1.
Proof. unfold fitZoom. split_minmax. Qed.

Lemma calculateMinZoom_bounds vp nodes :
  0.1 <= calculateMinZoom vp nodes <= 1.
Proof.
  destruct nodes as [|n ns]; cbn [calculateMinZoom];
    [lra|apply fitZoom_bounds].
Qed.

Lemma contentWidth_positive n ns : 0 < width n -> 0 < contentWidth n ns.
Proof.
  intros Hw. unfold contentWidth.
  pose proof (py_max_ge_acc (map (fun m => x m + width m) ns) (x n + width n)).
  pose proof (py_min_le_acc (map x ns) (x n)). lra.
Qed.

Lemma contentHeight_positive n ns : 0 < height n -> 0 < contentHeight n ns.
Proof.
  intros Hh. unfold contentHeight.
  pose proof (py_max_ge_acc (map (fun m => y m + height m) ns) (y n + height n)).
  pose proof (py_min_le_acc (map y ns) (y n)). lra.
Qed.

Lemma handle_zoom_range vp nodes st ev :
  calculateMinZoom vp nodes <= zoom st <= 3 ->
  calculateMinZoom vp nodes <= zoom (handle vp nodes st ev) <= 3.
Proof.
  intros Hz. pose proof (calculateMinZoom_bounds vp nodes) as Hm.
  destruct ev; cbn [handle].
  - unfold handleWheel. destruct ctrlKey; [|exact Hz].
    cbn [applyZoomWithMouseFocus applyZoom with_scroll with_optimal
         with_zoom zoom]. split_minmax.
  - unfold zoomIn.
    cbn [applyZoomWithMouseFocus applyZoom with_scroll with_optimal
         with_zoom zoom]. split_minmax.
  - unfold zoomOut.
    cbn [applyZoomWithMouseFocus applyZoom with_scroll with_optimal
         with_zoom zoom]. split_minmax.
  - unfold centerView. destruct nodes as [|n ns]; [exact Hz|].
    cbn [applyZoom with_scroll with_optimal with_zoom zoom calculateMinZoom].
    pose proof (fitZoom_bounds vp n ns). lra.
  - unfold startPanning. destruct onNode; exact Hz.
  - unfold mouseMoved, pan. destruct (isPanning st); exact Hz.
  - exact Hz.
Qed.

(** X15.  Whatever the sequence of wheel, button, reset and mouse events
    after the page is opened, the zoom stays between the minimum zoom of
    the viewport (itself between 0.1 and 1) and 3. *)
Theorem zoom_stays_in_range vp nodes events :
  positive_sizes nodes ->
  0.1 <= calculateMinZoom vp nodes <= 1 /\
  calculateMinZoom vp nodes <= zoom (run vp nodes events initial) <= 3.
Proof.
  intros _. pose proof (calculateMinZoom_bounds vp nodes) as Hm.
  split; [exact Hm|].
  assert (Hinit : calculateMinZoom vp nodes <= zoom initial <= 3)
    by (cbn [initial zoom]; lra).
  unfold run. revert Hinit. generalize initial.
  induction events as [|ev events IH]; intros st Hst; [exact Hst|].
  cbn [fold_left]. apply IH. now apply handle_zoom_range.
Qed.

Lemma board3_positive : positive_sizes board3.
Proof.
  unfold positive_sizes, board3.
  repeat constructor; cbn [width height]; lra.
Qed.

Lemma zoom_stays_in_range_board3 :
  0.1 <= calculateMinZoom screen board3 <= 1 /\
  calculateMinZoom screen board3
  <= zoom (run screen board3
             [ZoomReset; ZoomIn (mkPoint 0 0); MouseMove (mkPoint 10 10);
              Wheel true 1 (mkPoint 10 10) (mkPoint 0 0)] initial) <= 3.
Proof.
  apply (zoom_stays_in_range screen board3). exact board3_positive.
Defined.

(** X16.  Unless the floor of 0.1 applies, the content scaled by the
    minimum zoom fits the viewport less 100 units in both directions. *)
Theorem min_zoom_fits vp n ns :
  positive_sizes (n :: ns) ->
  let z := calculateMinZoom vp (n :: ns) in
  z = 0.1 \/
  (contentWidth n ns * z <= clientWidth vp - 100 /\
   contentHeight n ns * z <= clientHeight vp - 100).
Proof.
  intros Hpos. inversion Hpos as [|? ? [Hw Hh] _]; subst.
  pose proof (contentWidth_positive n ns Hw) as HW.
  pose proof (contentHeight_positive n ns Hh) as HH.
  cbv zeta. cbn [calculateMinZoom]. unfold fitZoom.
  set (W := contentWidth n ns) in *. set (H := contentHeight n ns) in *.
  set (sx := (clientWidth vp - 100) / W).
  set (sy := (clientHeight vp - 100) / H).
  assert (Hsx : W * sx = clientWidth vp - 100) by (unfold sx; field; lra).
  assert (Hsy : H * sy = clientHeight vp - 100) by (unfold sy; field; lra).
  unfold Rmax, Rmin; repeat destruct (Rle_dec _ _); try (left; lra);
    right; split; nra.
Qed.

Lemma min_zoom_fits_board3 :
  let z := calculateMinZoom screen board3 in
  z = 0.1 \/
  (contentWidth (mkNode "a" 200 300 150 60)
     [mkNode "b" 500 300 150 60; mkNode "c" 800 300 150 60] * z
   <= clientWidth screen - 100 /\
   contentHeight (mkNode "a" 200 300 150 60)
     [mkNode "b" 500 300 150 60; mkNode "c" 800 300 150 60] * z
   <= clientHeight screen - 100).
Proof.
  apply (min_zoom_fits screen (mkNode "a" 200 300 150 60)
           [mkNode "b" 500 300 150 60; mkNode "c" 800 300 150 60]).
  exact board3_positive.
Defined.

Lemma focus_keeps_point rel oldZoom st :
  scrollLeft (applyZoomWithMouseFocus rel rel oldZoom st)
  = scrollLeft st + rel * (zoom st - oldZoom).
Proof.
  unfold applyZoomWithMouseFocus.
  cbn [applyZoom with_scroll with_optimal scrollLeft zoom]. lra.
Qed.



Lemma centerView_zoom vp n ns st :
  zoom (centerView vp (n :: ns) st) = fitZoom vp n ns /\
  optimalZoom (centerView vp (n :: ns) st) = fitZoom vp n ns /\
  scroll_enabled (centerView vp (n :: ns) st) = false.
Proof.
  unfold centerView.
  cbn [applyZoom with_scroll with_optimal with_zoom zoom optimalZoom
       scroll_enabled].
  split; [reflexivity|]. split.
  - destruct (Reqb _ _); reflexivity.
  - replace (Rltb _ _) with true; [reflexivity|]. symmetry.
    apply RouterFacts.Rltb_true.
    destruct (Reqb _ _); rewrite Rminus_diag, Rabs_R0; lra.
Qed.

(** X18.  After a reset the view is at the minimum zoom: pressing zoom-out
    changes neither the zoom, nor the scroll position, nor any other field
    of the state. *)
Theorem zoom_out_after_reset vp n ns rect st :
  positive_sizes (n :: ns) ->
  zoomOut vp (n :: ns) rect (centerView vp (n :: ns) st)
  = centerView vp (n :: ns) st.
Proof.
  intros _.
  pose proof (fitZoom_bounds vp n ns) as Hb.
  destruct (centerView_zoom vp n ns st) as (Hz & Ho & He).
  destruct (centerView vp (n :: ns) st)
    as [z o sl stp en mx my ip ps ss] eqn:Hc.
  cbn [zoom optimalZoom scroll_enabled] in Hz, Ho, He. subst z o en.
  unfold zoomOut, applyZoomWithMouseFocus, applyZoom.
  cbn [with_scroll with_optimal with_zoom zoom optimalZoom scrollLeft
       scrollTop scroll_enabled lastMouseX lastMouseY isPanning panStart
       scrollStart calculateMinZoom].
  set (f := fitZoom vp n ns) in *.
  replace (Rmax f (f / 1.2)) with f by (unfold Rmax; destruct (Rle_dec _ _); lra).
  replace (if Reqb f 1 then f else f) with f by (destruct (Reqb f 1); reflexivity).
  replace (Rltb (Rabs (f - f)) 0.05) with true.
  2:{ symmetry. apply RouterFacts.Rltb_true. rewrite Rminus_diag, Rabs_R0. lra. }
  cbn [negb]. unfold with_scroll, with_optimal, with_zoom.
  cbn [zoom optimalZoom scrollLeft scrollTop scroll_enabled lastMouseX
       lastMouseY isPanning panStart scrollStart].
  f_equal; ring.
Qed.

Lemma zoom_out_after_reset_board3 :
  zoomOut screen board3 (mkPoint 0 0) (centerView screen board3 initial)
  = centerView screen board3 initial.
Proof.
  apply (zoom_out_after_reset screen (mkNode "a" 200 300 150 60)
           [mkNode "b" 500 300 150 60; mkNode "c" 800 300 150 60]
           (mkPoint 0 0) initial).
  exact board3_positive.
Defined.



End ViewerFacts.


(** ** Colours *)

Module PaletteFacts.
Import Palette.
Open Scope string_scope.

Lemma dict_get_hash key default :
  Markup.startswith default "#" = true ->
  Markup.startswith (dict_get color_map key default) "#" = true.
Proof.
  intros Hd. unfold dict_get.
  destruct (find _ color_map) as [entry|] eqn:Hf; [|exact Hd].
  apply find_some in Hf. destruct Hf as [Hin _].
  unfold color_map in Hin. cbn [In] in Hin.
  repeat (destruct Hin as [<-|Hin]; [reflexivity|]). destruct Hin.
Qed.

(** X20.  The colour of a node or an edge is always a string that starts
    with [#]: a string starting with [#] is returned as it is (whatever
    follows), a palette code gives its palette colour, and anything else
    that can be looked up gives the fallback, green for nodes and yellow
    for edges; only a list or an object makes the lookup fail. *)
Theorem colors_start_with_hash (color : ColorValue) :
  (color <> ColorCompound ->
   exists n e, get_node_color color = Some n /\ get_edge_color color = Some e /\
               Markup.startswith n "#" = true /\
               Markup.startswith e "#" = true) /\
  (forall s, Markup.startswith s "#" = true ->
             get_node_color (ColorString s) = Some s /\
             get_edge_color (ColorString s) = Some s) /\
  get_node_color NoColor = Some "#4caf50" /\
  get_edge_color NoColor = Some "#ffeb3b".
Proof.
  split; [|split; [|split; reflexivity]].
  - intros Hc. unfold get_node_color, get_edge_color, get_color.
    destruct color as [|s| |]; [| | |congruence].
    + eexists _, _. repeat split; reflexivity.
    + destruct (Markup.startswith s "#") eqn:Hs.
      * exists s, s. auto.
      * eexists _, _. split; [reflexivity|]. split; [reflexivity|].
        split; apply dict_get_hash; reflexivity.
    + eexists _, _. repeat split; reflexivity.
  - intros s Hs. unfold get_node_color, get_edge_color, get_color.
    now rewrite Hs.
Qed.

End PaletteFacts.

(** ** The whole render *)

Module RenderFacts.
Import Render.

(** C3.  For a fixed board, the page produced by the full render (the
    canvas extent, the node boxes with their content, and the paths and
    labels of the edges layer) is the same whatever values
    [Math.random()] returns: two executions produce identical output. *)
Theorem full_render_deterministic nodes edges (rnd rnd' : nat -> R) :
  full_render nodes edges rnd = full_render nodes edges rnd'.
Proof.
  unfold full_render, Router.edges_layer. f_equal.
  apply RouterFacts.drawEdges_drawing.
Qed.

(** X21.  The rendered page does not depend on where the board sits in
    the coordinates of the document: after moving every node by
    [(dx, dy)] the canvas has the same size, the node boxes are the same
    and so is the edges layer. *)
Theorem full_render_translation_invariant dx dy nodes edges rnd :
  let page := full_render nodes edges rnd in
  let page' := full_render (map (translate dx dy) nodes) edges rnd in
  Layout.canvas_width (extent page') = Layout.canvas_width (extent page) /\
  Layout.canvas_height (extent page') = Layout.canvas_height (extent page) /\
  boxes page' = boxes page /\
  edges_layer page' = edges_layer page.
Proof.
  cbv zeta. unfold full_render. cbn [extent boxes edges_layer].
  assert (Hgeo : map geometry (map (translate dx dy) nodes)
                 = map (Layout.translate dx dy) (map geometry nodes)).
  { rewrite !map_map. reflexivity. }
  rewrite Hgeo.
  destruct (LayoutFacts.compute_extent_translate dx dy (map geometry nodes))
    as (_ & Hw & Hh & Hpos).
  assert (Hboxes :
    map (place (Layout.compute_extent
                  (map (Layout.translate dx dy) (map geometry nodes))))
        (map (translate dx dy) nodes)
    = map (place (Layout.compute_extent (map geometry nodes))) nodes).
  { rewrite map_map. apply map_ext_in. intros n Hn.
    destruct (Hpos (geometry n) (in_map geometry _ _ Hn)) as [Hx Hy].
    unfold place, translate. cbn [geometry text].
    cbn [Layout.translate Layout.node_id Layout.node_x Layout.node_y
         Layout.node_width Layout.node_height] in *.
    rewrite Hx, Hy. reflexivity. }
  rewrite Hboxes. auto.
Qed.

End RenderFacts.
